(** * Checkers: the rule engine of [checkers_logic.py]

    A shallow embedding of the class [CheckersLogic] (board, piece counts,
    pending captures, visited set), of the methods that validate and apply a
    move, and of the turn loop of [checkers_ui.py] that drives them, followed
    by the properties of the move validator, the capture search and the move
    application. *)

From Stdlib Require Import ZArith List String Bool Lia.
From stdpp Require Import base decidable option list gmap sets strings.

Local Open Scope Z_scope.

(** ** Constants *)

Module Constants.

(** Modelled from the spec: [constants.py] is imported by both source files
    but is not among them.  The spec gives a cell one of five values (Empty,
    GreenMan, GreenKing, OrangeMan, OrangeKing) and two players; the names
    below are the ones the source uses for them. *)
Inductive cell : Type :=
  | EMPTY
  | GREEN_PIECE
  | GREEN_QUEEN
  | ORANGE_PIECE
  | ORANGE_QUEEN.

(** Modelled from the spec: the two players, [PLAYER_GREEN] and
    [PLAYER_ORANGE] in the absent [constants.py]; Green moves first. *)
Inductive player : Type :=
  | PLAYER_GREEN
  | PLAYER_ORANGE.

#[global] Instance cell_eq_dec : EqDecision cell.
Proof. solve_decision. Defined.

#[global] Instance player_eq_dec : EqDecision player.
Proof. solve_decision. Defined.

(** Modelled from the spec: the table of the absent [constants.py] that
    gives the man of each player. *)
Definition ENUM_NORMAL (p : player) : cell :=
  match p with
  | PLAYER_GREEN => GREEN_PIECE
  | PLAYER_ORANGE => ORANGE_PIECE
  end.

(** Modelled from the spec: the table of the absent [constants.py] that
    gives the king of each player. *)
Definition ENUM_PROMOTED (p : player) : cell :=
  match p with
  | PLAYER_GREEN => GREEN_QUEEN
  | PLAYER_ORANGE => ORANGE_QUEEN
  end.

(** Modelled from the spec: the table of the absent [constants.py] that
    gives the pieces of the other side, man and king. *)
Definition OPOSITES (p : player) : list cell :=
  match p with
  | PLAYER_GREEN => [ORANGE_PIECE; ORANGE_QUEEN]
  | PLAYER_ORANGE => [GREEN_PIECE; GREEN_QUEEN]
  end.

End Constants.

Export Constants.

(** ** Python values and list indexing *)

(** What [check_longer_move] hands back: [None] from the bare [return] of the
    visited-set check, or a boolean. *)
Inductive pyval : Type :=
  | PyNone
  | PyBool (b : bool).

Definition truthy (v : pyval) : bool :=
  match v with
  | PyNone => false
  | PyBool b => b
  end.

(** [a or b] on already evaluated operands. *)
Definition py_or (a b : pyval) : pyval := if truthy a then a else b.

Inductive exn : Type :=
  | IndexError
  | EOFError.

Section Indexing.

(** Python accepts [l[i]] for [0 <= i < len(l)] and, counting from the end,
    for [-len(l) <= i < 0]; any other index raises [IndexError].  With
    [strict] set the second form raises too, so that a run which returns
    under [strict] has only used indices with [0 <= i < len(l)]. *)
Variable strict : bool.

Definition py_position (len : nat) (i : Z) : option nat :=
  if (0 <=? i) && (i <? Z.of_nat len) then Some (Z.to_nat i)
  else if negb strict && (- Z.of_nat len <=? i) && (i <? 0)
       then Some (Z.to_nat (Z.of_nat len + i))
       else None.

Definition py_getitem {A : Type} (l : list A) (i : Z) : option A :=
  match py_position (length l) i with
  | Some n => l !! n
  | None => None
  end.

Definition py_setitem {A : Type} (l : list A) (i : Z) (x : A) : option (list A) :=
  match py_position (length l) i with
  | Some n => Some (<[n := x]> l)
  | None => None
  end.

End Indexing.

(** [range(start, stop, step)] for a positive step, at most [fuel] elements. *)
Fixpoint py_range (fuel : nat) (start stop step : Z) : list Z :=
  match fuel with
  | O => []
  | S fuel' =>
      if start <? stop then start :: py_range fuel' (start + step) stop step else []
  end.

(** ** The game object *)

Record CheckersLogic : Type := mkCheckersLogic {
  board : list (list cell);
  green_pieces : Z;
  orange_pieces : Z;
  eaten_pieces : list (Z * Z);
  current_player : player;
  winner : option player;
  memo : gset (Z * Z)
}.

Definition set_board (b : list (list cell)) (self : CheckersLogic) : CheckersLogic :=
  mkCheckersLogic b (green_pieces self) (orange_pieces self) (eaten_pieces self)
                  (current_player self) (winner self) (memo self).

Definition set_green_pieces (n : Z) (self : CheckersLogic) : CheckersLogic :=
  mkCheckersLogic (board self) n (orange_pieces self) (eaten_pieces self)
                  (current_player self) (winner self) (memo self).

Definition set_orange_pieces (n : Z) (self : CheckersLogic) : CheckersLogic :=
  mkCheckersLogic (board self) (green_pieces self) n (eaten_pieces self)
                  (current_player self) (winner self) (memo self).

Definition set_eaten_pieces (e : list (Z * Z)) (self : CheckersLogic) : CheckersLogic :=
  mkCheckersLogic (board self) (green_pieces self) (orange_pieces self) e
                  (current_player self) (winner self) (memo self).

Definition set_current_player (p : player) (self : CheckersLogic) : CheckersLogic :=
  mkCheckersLogic (board self) (green_pieces self) (orange_pieces self) (eaten_pieces self)
                  p (winner self) (memo self).

Definition set_winner (w : option player) (self : CheckersLogic) : CheckersLogic :=
  mkCheckersLogic (board self) (green_pieces self) (orange_pieces self) (eaten_pieces self)
                  (current_player self) w (memo self).

Definition set_memo (m : gset (Z * Z)) (self : CheckersLogic) : CheckersLogic :=
  mkCheckersLogic (board self) (green_pieces self) (orange_pieces self) (eaten_pieces self)
                  (current_player self) (winner self) m.

(** ** Methods as state transformers that may raise *)

(** A method call ends by returning a value, by raising, or, for the
    recursive search run with a bound on its depth, by exhausting the bound.
    The object is threaded through in the first two cases. *)
Inductive outcome (A : Type) : Type :=
  | Ret (a : A) (self : CheckersLogic)
  | Raise (e : exn) (self : CheckersLogic)
  | OutOfFuel.

Arguments Ret {A} a self.
Arguments Raise {A} e self.
Arguments OutOfFuel {A}.

Definition M (A : Type) : Type := CheckersLogic -> outcome A.

Definition ret {A : Type} (a : A) : M A := fun self => Ret a self.

Definition bind {A B : Type} (m : M A) (f : A -> M B) : M B :=
  fun self =>
    match m self with
    | Ret a self' => f a self'
    | Raise e self' => Raise e self'
    | OutOfFuel => OutOfFuel
    end.

Definition raise {A : Type} (e : exn) : M A := fun self => Raise e self.

Definition gets {A : Type} (f : CheckersLogic -> A) : M A := fun self => Ret (f self) self.

Definition modify (f : CheckersLogic -> CheckersLogic) : M unit :=
  fun self => Ret tt (f self).

(** [if c: m], without an [else]. *)
Definition when (c : bool) (m : M unit) : M unit := if c then m else ret tt.

Definition index_or_raise {A : Type} (o : option A) : M A :=
  match o with
  | Some a => ret a
  | None => raise IndexError
  end.

#[global] Instance M_ret : MRet M := @ret.
#[global] Instance M_bind : MBind M := fun A B f m => bind m f.

(** [len(self.board)] *)
Definition len_board : M Z := b ← gets board; ret (Z.of_nat (length b)).

Section Methods.

Variable strict : bool.

(** [self.board[row][col]] *)
Definition get_piece (row col : Z) : M cell :=
  b ← gets board;
  r ← index_or_raise (py_getitem strict b row);
  index_or_raise (py_getitem strict r col).

(** [self.board[row][col] = value]: the row object is fetched, then
    updated in place. *)
Definition set_piece (row col : Z) (value : cell) : M unit :=
  b ← gets board;
  r ← index_or_raise (py_getitem strict b row);
  r' ← index_or_raise (py_setitem strict r col value);
  b' ← index_or_raise (py_setitem strict b row r');
  modify (set_board b').

Definition change_player : M unit :=
  p ← gets current_player;
  modify (set_current_player
            (if decide (p = PLAYER_ORANGE) then PLAYER_GREEN else PLAYER_ORANGE)).

Definition check_valid_piece (init_row init_col : Z) : M bool :=
  piece ← get_piece init_row init_col;
  p ← gets current_player;
  if bool_decide (piece <> ENUM_NORMAL p) && bool_decide (piece <> ENUM_PROMOTED p)
  then ret false
  else ret true.

(** The loop of [eat_pieces] over [self.eaten_pieces]. *)
Fixpoint eat_loop (pieces : list (Z * Z)) (counter : Z) : M Z :=
  match pieces with
  | [] => ret counter
  | piece :: rest =>
      set_piece (fst piece) (snd piece) EMPTY ;;
      eat_loop rest (counter + 1)
  end.

Definition eat_pieces : M unit :=
  pieces ← gets eaten_pieces;
  counter ← eat_loop pieces 0;
  p ← gets current_player;
  (if decide (p = PLAYER_GREEN)
   then n ← gets orange_pieces; modify (set_orange_pieces (n - counter))
   else n ← gets green_pieces; modify (set_green_pieces (n - counter))) ;;
  modify (set_eaten_pieces []).

Definition check_piece_promotion_and_promote (end_row end_col : Z) : M unit :=
  p ← gets current_player;
  n ← len_board;
  when (bool_decide (p = PLAYER_GREEN) && (end_row =? n - 1))
       (set_piece end_row end_col GREEN_QUEEN) ;;
  p ← gets current_player;
  when (bool_decide (p = PLAYER_ORANGE) && (end_row =? 0))
       (set_piece end_row end_col ORANGE_QUEEN).

(** Annotated [-> bool] in the source, it returns nothing. *)
Definition check_end : M unit :=
  g ← gets green_pieces;
  when (g =? 0) (modify (set_winner (Some PLAYER_ORANGE))) ;;
  o ← gets orange_pieces;
  when (o =? 0) (modify (set_winner (Some PLAYER_GREEN))).

Definition perform_move (init_row init_col end_row end_col : Z) : M bool :=
  piece ← get_piece init_row init_col;
  set_piece end_row end_col piece ;;
  when (negb (init_row =? end_row) || negb (init_col =? end_col))
       (set_piece init_row init_col EMPTY) ;;
  pieces ← gets eaten_pieces;
  when (0 <? Z.of_nat (length pieces)) eat_pieces ;;
  check_piece_promotion_and_promote end_row end_col ;;
  check_end ;;
  ret true.

Definition check_basic_move (end_row end_col : Z) : M bool :=
  piece ← get_piece end_row end_col;
  if bool_decide (piece <> EMPTY) then ret true else ret false.

Definition check_opposite (p : player) (piece_two : cell) : bool :=
  if bool_decide (piece_two ∈ OPOSITES p) then true else false.

(** One of the four capture branches of [check_longer_move], which the
    source writes out one after the other: when the column guard holds
    and the adjacent diagonal square [(mid_row, mid_col)] holds a piece
    of the other side, that square is appended to [eaten] and the search
    [continue] goes on from the landing square; otherwise the branch
    variable keeps its initial [False]. *)
Definition capture_branch (continue : Z -> Z -> list (Z * Z) -> M pyval)
    (col_guard : M bool) (mid_row mid_col land_row land_col : Z)
    (eaten : list (Z * Z)) : M pyval :=
  g ← col_guard;
  if (g : bool) then
    p ← gets current_player;
    x ← get_piece mid_row mid_col;
    if check_opposite p x
    then continue land_row land_col (eaten ++ [(mid_row, mid_col)])
    else ret (PyBool false)
  else ret (PyBool false).

Definition col_ge_2 (init_col : Z) : M bool := ret (2 <=? init_col).

Definition col_le_len_minus_3 (init_col : Z) : M bool :=
  n ← len_board; ret (init_col <=? n - 3).

(** The recursion of the source is bounded here by [fuel]; the section on
    termination shows that 65 is always enough on the board. *)
Fixpoint check_longer_move (fuel : nat) (piece : cell)
    (init_row init_col end_row end_col : Z) (eaten : list (Z * Z)) : M pyval :=
  match fuel with
  | O => fun _ => OutOfFuel
  | S fuel' =>
      let continue := fun r c e => check_longer_move fuel' piece r c end_row end_col e in
      visited ← gets memo;
      if bool_decide ((init_row, init_col) ∈ visited) then ret PyNone else
      modify (fun self => set_memo (memo self ∪ {[ (init_row, init_col) ]}) self) ;;
      if (init_row =? end_row) && (init_col =? end_col)
      then modify (set_eaten_pieces eaten) ;; ret (PyBool true)
      else
        top ←
          (if bool_decide (piece = GREEN_PIECE) || bool_decide (piece = GREEN_QUEEN)
              || bool_decide (piece = ORANGE_QUEEN)
           then
             n ← len_board;
             if init_row <=? n - 3 then
               top_right ← capture_branch continue (col_ge_2 init_col)
                              (init_row + 1) (init_col - 1)
                              (init_row + 2) (init_col - 2) eaten;
               top_left ← capture_branch continue (col_le_len_minus_3 init_col)
                             (init_row + 1) (init_col + 1)
                             (init_row + 2) (init_col + 2) eaten;
               ret (top_right, top_left)
             else ret (PyBool false, PyBool false)
           else ret (PyBool false, PyBool false));
        bottom ←
          (if bool_decide (piece = ORANGE_PIECE) || bool_decide (piece = GREEN_QUEEN)
              || bool_decide (piece = ORANGE_QUEEN)
           then
             if 2 <=? init_row then
               bottom_right ← capture_branch continue (col_le_len_minus_3 init_col)
                                 (init_row - 1) (init_col + 1)
                                 (init_row - 2) (init_col + 2) eaten;
               bottom_left ← capture_branch continue (col_ge_2 init_col)
                                (init_row - 1) (init_col - 1)
                                (init_row - 2) (init_col - 2) eaten;
               ret (bottom_right, bottom_left)
             else ret (PyBool false, PyBool false)
           else ret (PyBool false, PyBool false));
        ret (py_or (py_or (py_or (fst top) (snd top)) (fst bottom)) (snd bottom))
  end.

Definition check_wrong_direction (init_row init_col end_row : Z) : M bool :=
  let difference := end_row - init_row in
  piece ← get_piece init_row init_col;
  if bool_decide (piece = GREEN_PIECE) && (difference <=? 0) then ret true
  else if bool_decide (piece = ORANGE_PIECE) && (0 <=? difference) then ret true
  else ret false.

Definition check_same_move (init_row init_col end_row end_col : Z) : bool :=
  if (init_row =? end_row) && (init_col =? end_col) then true else false.

Definition validate_move (fuel : nat) (init_row init_col end_row end_col : Z)
  : M (bool * string) :=
  if check_same_move init_row init_col end_row end_col
  then ret (false, "You have to move the piece"%string)
  else
    wrong ← check_wrong_direction init_row init_col end_row;
    if (wrong : bool) then ret (false, "You have to move forward"%string)
    else if (Z.abs (end_row - init_row) =? 1) && (Z.abs (init_col - end_col) =? 1)
    then
      occupied ← check_basic_move end_row end_col;
      if (occupied : bool)
      then ret (false, "You can not move there, there is already a piece"%string)
      else ret (true, ""%string)
    else
      modify (set_memo ∅) ;;
      piece ← get_piece init_row init_col;
      found ← check_longer_move fuel piece init_row init_col end_row end_col [];
      if negb (truthy found)
      then ret (false, "That move is not allowed"%string)
      else ret (true, ""%string).

End Methods.

(** [board[row_index][col_index] = piece] on the board [init_game] is
    building; the indices it uses are on the board. *)
Definition place (piece : cell) (row_index : Z) (b : list (list cell)) (col_index : Z)
  : list (list cell) :=
  match py_getitem false b row_index with
  | Some r =>
      match py_setitem false r col_index piece with
      | Some r' => default b (py_setitem false b row_index r')
      | None => b
      end
  | None => b
  end.

(** The board of [init_game]: every cell is first [EMPTY]; rows 0 to 2 then
    receive green men and rows 5 to 7 orange men, on every second column from
    [col_begin]. *)
Definition init_board : list (list cell) :=
  foldl
    (fun b row_index =>
       let col_begin := if row_index mod 2 =? 0 then 1 else 0 in
       if row_index <? 3
       then foldl (place GREEN_PIECE row_index) b (py_range 8 col_begin 8 2)
       else if 4 <? row_index
       then foldl (place ORANGE_PIECE row_index) b (py_range 8 col_begin 8 2)
       else b)
    (replicate 8 (replicate 8 EMPTY)) (py_range 8 0 8 1).

(** The object [init_game] leaves. *)
Definition init_game : CheckersLogic :=
  mkCheckersLogic init_board 12 12 [] PLAYER_GREEN None ∅.

(** ** The turn loop of [checkers_ui.py] *)

(** A line accepted by the pattern [^[0-7]$] of [validate_input], as the
    number it stands for. *)
Definition digit_0_7 (line : string) : option Z :=
  match line with
  | String ch EmptyString =>
      let n := Z.of_N (Ascii.N_of_ascii ch) in
      if (48 <=? n) && (n <=? 55) then Some (n - 48) else None
  | _ => None
  end.

(** [validate_input]: lines are read until one is a digit from 0 to 7; the
    lines still to be read are handed back with it.  Reading past the last
    line raises [EOFError], as [input()] does. *)
Fixpoint validate_input (lines : list string) : M (Z * list string) :=
  match lines with
  | [] => raise EOFError
  | line :: rest =>
      match digit_0_7 line with
      | Some n => ret (n, rest)
      | None => validate_input rest
      end
  end.

Definition ask_for_move (lines : list string) : M (Z * Z * list string) :=
  '(end_row, lines1) ← validate_input lines;
  '(end_col, lines2) ← validate_input lines1;
  ret (end_row, end_col, lines2).

Section TurnLoop.

Variable strict : bool.

(** Bound on the depth of the capture search. *)
Variable search_fuel : nat.

(** [ask_for_piece]: asks again until the square holds a piece of the
    current player.  [fuel] bounds the number of rounds, here and in the two
    loops below.  What the interface prints does not touch the game and is
    left out. *)
Fixpoint ask_for_piece (fuel : nat) (lines : list string) : M (Z * Z * list string) :=
  match fuel with
  | O => fun _ => OutOfFuel
  | S fuel' =>
      '(init_row, lines1) ← validate_input lines;
      '(init_col, lines2) ← validate_input lines1;
      ok ← check_valid_piece strict init_row init_col;
      if negb ok then ask_for_piece fuel' lines2
      else ret (init_row, init_col, lines2)
  end.

(** The loop of [move]: a piece and a destination are asked for until
    [validate_move] accepts them. *)
Fixpoint ask_until_valid (fuel : nat) (lines : list string)
  : M (Z * Z * Z * Z * list string) :=
  match fuel with
  | O => fun _ => OutOfFuel
  | S fuel' =>
      '(init_row, init_col, lines1) ← ask_for_piece fuel lines;
      '(end_row, end_col, lines2) ← ask_for_move lines1;
      '(move_validated, error) ←
         validate_move strict search_fuel init_row init_col end_row end_col;
      if negb move_validated then ask_until_valid fuel' lines2
      else ret (init_row, init_col, end_row, end_col, lines2)
  end.

Definition move (fuel : nat) (lines : list string) : M (list string) :=
  '(init_row, init_col, end_row, end_col, rest) ← ask_until_valid fuel lines;
  perform_move strict init_row init_col end_row end_col ;;
  w ← gets winner;
  when (negb (bool_decide (is_Some w))) change_player ;;
  ret rest.

(** The loop of [play]: turns are taken while no winner is set. *)
Fixpoint play_loop (fuel : nat) (lines : list string) : M (list string) :=
  match fuel with
  | O => fun _ => OutOfFuel
  | S fuel' =>
      w ← gets winner;
      if negb (bool_decide (is_Some w))
      then rest ← move fuel' lines; play_loop fuel' rest
      else ret lines
  end.

End TurnLoop.

(** ** Counting pieces and example positions *)

(** Number of cells of the board satisfying [is_piece]. *)
Definition count_cells (is_piece : cell -> bool) (b : list (list cell)) : Z :=
  Z.of_nat (length (filter (fun x => is_piece x = true) (concat b))).

Definition is_green (x : cell) : bool :=
  bool_decide (x = GREEN_PIECE) || bool_decide (x = GREEN_QUEEN).

Definition is_orange (x : cell) : bool :=
  bool_decide (x = ORANGE_PIECE) || bool_decide (x = ORANGE_QUEEN).

(** A board holding the listed pieces and nothing else. *)
Definition board_with (pieces : list (Z * Z * cell)) : list (list cell) :=
  foldl (fun b p => place (snd p) (fst (fst p)) b (snd (fst p)))
        (replicate 8 (replicate 8 EMPTY)) pieces.

(** A green king on (4,3) with an orange man on each adjacent diagonal
    square, Green to move. *)
Definition king_position : CheckersLogic :=
  mkCheckersLogic
    (board_with [(4, 3, GREEN_QUEEN); (5, 2, ORANGE_PIECE); (5, 4, ORANGE_PIECE);
                 (3, 2, ORANGE_PIECE); (3, 4, ORANGE_PIECE)])
    1 4 [] PLAYER_GREEN None ∅.

(** A green man on (3,2) and one on (2,3), an orange man on (4,3), Green to
    move. *)
Definition capture_position : CheckersLogic :=
  mkCheckersLogic
    (board_with [(3, 2, GREEN_PIECE); (2, 3, GREEN_PIECE); (4, 3, ORANGE_PIECE)])
    2 1 [] PLAYER_GREEN None ∅.

(** A green king on (4,3) with free squares around it, and an orange man
    far away. *)
Definition free_king_position : CheckersLogic :=
  mkCheckersLogic
    (board_with [(4, 3, GREEN_QUEEN); (7, 0, ORANGE_PIECE)])
    1 1 [] PLAYER_GREEN None ∅.

(** The last orange man, on (4,3), can be taken by the green man on (3,2). *)
Definition last_capture_position : CheckersLogic :=
  mkCheckersLogic
    (board_with [(3, 2, GREEN_PIECE); (4, 3, ORANGE_PIECE)])
    1 1 [] PLAYER_GREEN None ∅.

(** * Vocabulary of the statements *)

(** [wp m self Q X F]: the call [m] on [self] ends in a return satisfying
    [Q], in a raise leaving an object satisfying [X], or out of fuel when
    [F] holds.  Total correctness is [X] and [F] both false. *)
Definition wp {A : Type} (m : M A) (self : CheckersLogic)
    (Q : A -> CheckersLogic -> Prop) (X : CheckersLogic -> Prop) (F : Prop) : Prop :=
  match m self with
  | Ret a self' => Q a self'
  | Raise _ self' => X self'
  | OutOfFuel => F
  end.

(** Postconditions for a raise: excluded, or left open. *)
Definition no_raise : CheckersLogic -> Prop := fun _ => False.

Definition any_raise : CheckersLogic -> Prop := fun _ => True.

(** Whether the call returns or raises, the object it leaves is related
    to the one it started from. *)
Definition preserves {A : Type} (R : CheckersLogic -> CheckersLogic -> Prop) (m : M A)
  : Prop :=
  forall s, wp m s (fun _ s' => R s s') (fun s' => R s s') True.

(** The four capture branches of [check_longer_move] and its final [or],
    as they stand in its body, with the recursive call as [continue]. *)
Local Abbreviation branches strict continue piece r c eaten :=
  (top ←
     (if bool_decide (piece = GREEN_PIECE) || bool_decide (piece = GREEN_QUEEN)
         || bool_decide (piece = ORANGE_QUEEN)
      then
        n ← len_board;
        if r <=? n - 3 then
          top_right ← capture_branch strict continue (col_ge_2 c)
                        (r + 1) (c - 1) (r + 2) (c - 2) eaten;
          top_left ← capture_branch strict continue (col_le_len_minus_3 c)
                       (r + 1) (c + 1) (r + 2) (c + 2) eaten;
          ret (top_right, top_left)
        else ret (PyBool false, PyBool false)
      else ret (PyBool false, PyBool false));
   bottom ←
     (if bool_decide (piece = ORANGE_PIECE) || bool_decide (piece = GREEN_QUEEN)
         || bool_decide (piece = ORANGE_QUEEN)
      then
        if 2 <=? r then
          bottom_right ← capture_branch strict continue (col_le_len_minus_3 c)
                           (r - 1) (c + 1) (r - 2) (c + 2) eaten;
          bottom_left ← capture_branch strict continue (col_ge_2 c)
                          (r - 1) (c - 1) (r - 2) (c - 2) eaten;
          ret (bottom_right, bottom_left)
        else ret (PyBool false, PyBool false)
      else ret (PyBool false, PyBool false));
   ret (py_or (py_or (py_or (fst top) (snd top)) (fst bottom)) (snd bottom))).

(** Eight rows of eight cells, as [init_game] builds the board and every
    move leaves it. *)
Definition wf_board (b : list (list cell)) : Prop :=
  length b = 8%nat /\ Forall (fun r => length r = 8%nat) b.

(** Coordinates within 0..7. *)
Definition on_board (row col : Z) : Prop := 0 <= row <= 7 /\ 0 <= col <= 7.

(** The 64 squares, as the tuples the search stores in [memo]. *)
Definition squares : gset (Z * Z) :=
  list_to_set (r ← seqZ 0 8; c ← seqZ 0 8; [(r, c)]).

(** Squares of the board not visited yet: what the search uses up. *)
Definition unvisited (m : gset (Z * Z)) : nat := size (squares ∖ m).

(** The content of a square of a well-formed board. *)
Definition cell_at (b : list (list cell)) (row col : Z) : cell :=
  default EMPTY (b !! Z.to_nat row ≫= fun r => r !! Z.to_nat col).

(** From an object satisfying [J] the call returns (no raise, fuel not
    exhausted), its value satisfies [P] and the object moved along [R]. *)
Definition total {A : Type} (J : CheckersLogic -> Prop)
    (R : CheckersLogic -> CheckersLogic -> Prop) (m : M A) (P : A -> Prop) : Prop :=
  forall s, J s -> wp m s (fun a s' => R s s' /\ P a) no_raise False.

(** What a search may do to the object: the board is left alone and the
    visited set only grows, by squares of the board. *)
Definition search_rel (s s' : CheckersLogic) : Prop :=
  board s' = board s /\ memo s ⊆ memo s' /\ memo s' ⊆ memo s ∪ squares.

(** The invariant of a search that may still go [fuel] calls deep. *)
Definition search_inv (fuel : nat) (s : CheckersLogic) : Prop :=
  wf_board (board s) /\ (unvisited (memo s) < fuel)%nat.

(** [m2] returns whatever [m1] returns.  A run with less fuel, or one that
    forbids negative indices, is refined in this sense by the run with more
    fuel and by the run with Python's indexing. *)
Definition refines {A : Type} (m1 m2 : M A) : Prop :=
  forall s a s', m1 s = Ret a s' -> m2 s = Ret a s'.

(** The reasons [validate_move] gives for a rejection. *)
Definition rejection (msg : string) : Prop :=
  msg = "You have to move the piece"%string \/
  msg = "You have to move forward"%string \/
  msg = "You can not move there, there is already a piece"%string \/
  msg = "That move is not allowed"%string.

(** An accepted move comes with the empty text, a rejected one with one of
    the four reasons. *)
Definition verdict_ok (v : bool * string) : Prop :=
  (fst v = true -> snd v = ""%string) /\ (fst v = false -> rejection (snd v)).

(** What [validate_move] must leave alone. *)
Definition game_unchanged (s s' : CheckersLogic) : Prop :=
  board s' = board s /\ green_pieces s' = green_pieces s /\
  orange_pieces s' = orange_pieces s /\ current_player s' = current_player s /\
  winner s' = winner s.

(** The object a call leaves behind, when it returns and when it raises. *)
Definition outcome_object {A : Type} (o : outcome A) : option CheckersLogic :=
  match o with
  | Ret _ s | Raise _ s => Some s
  | OutOfFuel => None
  end.

(** Along a search the board and the player to move stay put and the
    visited set grows. *)
Definition search_step (s s' : CheckersLogic) : Prop :=
  board s' = board s /\ current_player s' = current_player s /\ memo s ⊆ memo s'.

(** A jump from [(r, c)] over the adjacent square in direction [(dr, dc)]:
    the landing square is on the board and the square jumped over holds a
    piece of the side that is not to move.  These are the tests the source
    makes before a branch recurses. *)
Definition can_jump (s : CheckersLogic) (r c dr dc : Z) : Prop :=
  on_board (r + 2 * dr) (c + 2 * dc) /\
  check_opposite (current_player s) (cell_at (board s) (r + dr) (c + dc)) = true.

(** Objects with the position of [s0]. *)
Definition same_position (s0 s : CheckersLogic) : Prop :=
  board s = board s0 /\ current_player s = current_player s0.

(** From the position of [s0], the call leaves [(lr, lc)] visited. *)
Definition reaches {A : Type} (s0 : CheckersLogic) (lr lc : Z) (m : M A) : Prop :=
  forall s, same_position s0 s ->
    wp m s (fun _ s' => search_step s s' /\ (lr, lc) ∈ memo s') any_raise True.

(** The tests of [check_longer_move] on the kind of the moving piece. *)
Local Abbreviation moves_up piece :=
  (bool_decide (piece = GREEN_PIECE) || bool_decide (piece = GREEN_QUEEN)
   || bool_decide (piece = ORANGE_QUEEN)).

Local Abbreviation moves_down piece :=
  (bool_decide (piece = ORANGE_PIECE) || bool_decide (piece = GREEN_QUEEN)
   || bool_decide (piece = ORANGE_QUEEN)).

(** Every square a call adds to [memo] has a row accepted by [ok]. *)
Definition rows_from (ok : Z -> Prop) (s s' : CheckersLogic) : Prop :=
  forall p, p ∈ memo s' -> p ∈ memo s \/ ok (fst p).

(** The board keeps its shape. *)
Definition shape_kept (s s' : CheckersLogic) : Prop :=
  wf_board (board s) -> wf_board (board s').

(** The count of the side to move. *)
Definition own_pieces (s : CheckersLogic) : Z :=
  match current_player s with
  | PLAYER_GREEN => green_pieces s
  | PLAYER_ORANGE => orange_pieces s
  end.

(** The side to move is the same and has as many pieces counted. *)
Definition mover_unchanged (s s' : CheckersLogic) : Prop :=
  current_player s' = current_player s /\ own_pieces s' = own_pieces s.

(** [perform_move] up to, and not including, its call of [check_end]. *)
Definition before_check_end (strict : bool) (init_row init_col end_row end_col : Z) : M unit :=
  piece ← get_piece strict init_row init_col;
  set_piece strict end_row end_col piece ;;
  when (negb (init_row =? end_row) || negb (init_col =? end_col))
       (set_piece strict init_row init_col EMPTY) ;;
  pieces ← gets eaten_pieces;
  when (0 <? Z.of_nat (length pieces)) (eat_pieces strict) ;;
  check_piece_promotion_and_promote strict end_row end_col.

(** * Proofs *)

(** ** Reasoning about method calls *)

Section WpRules.

Context {A B : Type}.
Implicit Types (Q : A -> CheckersLogic -> Prop) (X : CheckersLogic -> Prop) (F : Prop).

Lemma wp_ret (a : A) self Q X F : Q a self -> wp (ret a) self Q X F.
Proof. exact id. Qed.

Lemma wp_bind (m : M A) (f : A -> M B) self (Q : B -> CheckersLogic -> Prop) X F :
  wp m self (fun a self' => wp (f a) self' Q X F) X F -> wp (m ≫= f) self Q X F.
Proof.
  unfold wp, mbind, M_bind, bind. destruct (m self); auto.
Qed.

Lemma wp_gets (f : CheckersLogic -> A) self Q X F : Q (f self) self -> wp (gets f) self Q X F.
Proof. exact id. Qed.

Lemma wp_index_or_raise (o : option A) self Q X F :
  (forall a, o = Some a -> Q a self) -> (o = None -> X self) ->
  wp (index_or_raise o) self Q X F.
Proof. destruct o; cbn; auto. Qed.

Lemma wp_mono (m : M A) self Q Q' X X' F F' :
  wp m self Q X F ->
  (forall a self', Q a self' -> Q' a self') ->
  (forall self', X self' -> X' self') ->
  (F -> F') ->
  wp m self Q' X' F'.
Proof. unfold wp. destruct (m self); auto. Qed.

Lemma wp_returns (m : M A) self Q :
  wp m self Q no_raise False <-> exists a self', m self = Ret a self' /\ Q a self'.
Proof.
  unfold wp, no_raise. destruct (m self); split; try tauto; eauto.
  all: intros (? & ? & ? & ?); congruence.
Qed.

Lemma wp_ret_inv (m : M A) self Q X F a self' :
  wp m self Q X F -> m self = Ret a self' -> Q a self'.
Proof. unfold wp. intros H E. now rewrite E in H. Qed.

Lemma wp_raise_inv (m : M A) self Q X F e self' :
  wp m self Q X F -> m self = Raise e self' -> X self'.
Proof. unfold wp. intros H E. now rewrite E in H. Qed.

End WpRules.

Lemma wp_modify (f : CheckersLogic -> CheckersLogic) self
    (Q : unit -> CheckersLogic -> Prop) X F :
  Q tt (f self) -> wp (modify f) self Q X F.
Proof. exact id. Qed.

Lemma wp_when (c : bool) (m : M unit) self (Q : unit -> CheckersLogic -> Prop) X F :
  (c = true -> wp m self Q X F) -> (c = false -> Q tt self) -> wp (when c m) self Q X F.
Proof. destruct c; cbn; auto. Qed.

Lemma wp_len_board self (Q : Z -> CheckersLogic -> Prop) X F :
  Q (Z.of_nat (length (board self))) self -> wp len_board self Q X F.
Proof. exact id. Qed.

(** Case analysis on the condition the call branches on. *)
Ltac wp_if :=
  lazymatch goal with
  | |- wp (if ?c then _ else _) _ _ _ _ => destruct c eqn:?
  end.

(** ** Relations every outcome of a call maintains *)

Section Preserves.

Variable R : CheckersLogic -> CheckersLogic -> Prop.
Hypothesis R_refl : forall s, R s s.
Hypothesis R_trans : forall s1 s2 s3, R s1 s2 -> R s2 s3 -> R s1 s3.

Lemma preserves_ret {A : Type} (a : A) : preserves R (ret a).
Proof using R_refl. intros s. apply R_refl. Qed.

Lemma preserves_gets {A : Type} (f : CheckersLogic -> A) : preserves R (gets f).
Proof using R_refl. intros s. apply R_refl. Qed.

Lemma preserves_raise {A : Type} (e : exn) : preserves R (@raise A e).
Proof using R_refl. intros s. apply R_refl. Qed.

Lemma preserves_index_or_raise {A : Type} (o : option A) : preserves R (index_or_raise o).
Proof using R_refl. destruct o; intros s; apply R_refl. Qed.

Lemma preserves_len_board : preserves R len_board.
Proof using R_refl. intros s. apply R_refl. Qed.

Lemma preserves_modify (f : CheckersLogic -> CheckersLogic) :
  (forall s, R s (f s)) -> preserves R (modify f).
Proof. intros H s. apply H. Qed.

Lemma preserves_bind {A B : Type} (m : M A) (f : A -> M B) :
  preserves R m -> (forall a, preserves R (f a)) -> preserves R (m ≫= f).
Proof using R_trans.
  intros Hm Hf s. apply wp_bind.
  eapply wp_mono; [apply Hm | | auto | auto].
  intros a s1 H1. cbn beta in H1.
  eapply wp_mono; [apply Hf | | | auto]; cbn beta; intros; eapply R_trans; eauto.
Qed.

Lemma preserves_when (c : bool) (m : M unit) : preserves R m -> preserves R (when c m).
Proof using R_refl. destruct c; cbn; auto using preserves_ret. Qed.

Lemma preserves_out_of_fuel {A : Type} : preserves R (fun _ => @OutOfFuel A).
Proof. intros s. exact I. Qed.

End Preserves.

(** Symbolic execution for [preserves]: binds, primitives and then the
    conditionals of the method bodies. *)
Ltac preserves_step :=
  lazymatch goal with
  | |- preserves _ (_ ≫= _) => apply preserves_bind; [assumption | | intros]
  | |- preserves _ (ret _) => apply preserves_ret; assumption
  | |- preserves _ (gets _) => apply preserves_gets; assumption
  | |- preserves _ (raise _) => apply preserves_raise; assumption
  | |- preserves _ (index_or_raise _) => apply preserves_index_or_raise; assumption
  | |- preserves _ len_board => apply preserves_len_board; assumption
  | |- preserves _ (when _ _) => apply preserves_when; [assumption | ]
  | |- preserves _ (if ?c then _ else _) => destruct c
  | |- preserves _ (match ?c with _ => _ end) => destruct c
  end.

Section PreservedByReads.

Variable strict : bool.
Variable R : CheckersLogic -> CheckersLogic -> Prop.
Hypothesis R_refl : forall s, R s s.
Hypothesis R_trans : forall s1 s2 s3, R s1 s2 -> R s2 s3 -> R s1 s3.

Lemma preserves_get_piece row col : preserves R (get_piece strict row col).
Proof using R_refl R_trans. unfold get_piece. repeat preserves_step. Qed.

Lemma preserves_check_basic_move row col : preserves R (check_basic_move strict row col).
Proof using R_refl R_trans.
  unfold check_basic_move.
  apply preserves_bind; auto using preserves_get_piece.
  intros; repeat preserves_step.
Qed.

Lemma preserves_check_wrong_direction r c er :
  preserves R (check_wrong_direction strict r c er).
Proof using R_refl R_trans.
  unfold check_wrong_direction.
  apply preserves_bind; auto using preserves_get_piece.
  intros; repeat preserves_step.
Qed.

Lemma preserves_col_guards c :
  preserves R (col_ge_2 c) /\ preserves R (col_le_len_minus_3 c).
Proof using R_refl R_trans.
  split; unfold col_ge_2, col_le_len_minus_3; repeat preserves_step.
Qed.

Lemma preserves_capture_branch continue col_guard mr mc lr lc eaten :
  preserves R col_guard ->
  (forall e, preserves R (continue lr lc e)) ->
  preserves R (capture_branch strict continue col_guard mr mc lr lc eaten).
Proof using R_refl R_trans.
  intros Hg Hc. unfold capture_branch.
  apply preserves_bind; auto. intros g. destruct g; [ | repeat preserves_step].
  preserves_step. { preserves_step. }
  apply preserves_bind; auto using preserves_get_piece.
  intros x. destruct (check_opposite _ _); [apply Hc | preserves_step].
Qed.

Lemma preserves_branches continue piece r c eaten :
  (forall r' c' e, preserves R (continue r' c' e)) ->
  preserves R (branches strict continue piece r c eaten).
Proof using R_refl R_trans.
  intros Hc. pose proof preserves_col_guards as Hg.
  repeat first
    [ apply preserves_capture_branch; [apply Hg | intros; apply Hc]
    | preserves_step ].
Qed.

(** The search only writes [memo], by adding a square, and [eaten_pieces]. *)
Hypothesis R_memo_add : forall s p, R s (set_memo (memo s ∪ {[ p ]}) s).
Hypothesis R_eaten : forall s e, R s (set_eaten_pieces e s).

Lemma preserves_check_longer_move fuel piece r c er ec eaten :
  preserves R (check_longer_move strict fuel piece r c er ec eaten).
Proof using R_refl R_trans R_memo_add R_eaten.
  revert r c eaten. induction fuel as [|fuel IH]; intros r c eaten.
  { apply preserves_out_of_fuel. }
  cbn [check_longer_move].
  repeat first
    [ apply preserves_branches; intros; apply IH
    | apply preserves_modify; intros; auto
    | preserves_step ].
Qed.

(** [validate_move] also empties [memo] before a search. *)
Hypothesis R_memo_reset : forall s, R s (set_memo ∅ s).

Lemma preserves_validate_move fuel r c er ec :
  preserves R (validate_move strict fuel r c er ec).
Proof using R_refl R_trans R_memo_add R_eaten R_memo_reset.
  unfold validate_move.
  repeat first
    [ apply preserves_check_wrong_direction
    | apply preserves_check_basic_move
    | apply preserves_get_piece
    | apply preserves_check_longer_move
    | apply preserves_modify; intros; auto
    | preserves_step ].
Qed.

End PreservedByReads.

(** ** The board and its squares *)

Lemma elem_of_squares row col : (row, col) ∈ squares <-> on_board row col.
Proof.
  unfold squares, on_board. rewrite elem_of_list_to_set, list_elem_of_bind. split.
  - intros (r & Hin & Hr). apply list_elem_of_bind in Hin as (c & Hin & Hc).
    apply elem_of_seqZ in Hr, Hc. apply list_elem_of_singleton in Hin.
    injection Hin as -> ->. lia.
  - intros [Hr Hc]. exists row. split; [ | apply elem_of_seqZ; lia].
    apply list_elem_of_bind. exists col. split; [ | apply elem_of_seqZ; lia].
    now apply list_elem_of_singleton.
Qed.

Lemma size_squares : size squares = 64%nat.
Proof. vm_compute. reflexivity. Qed.

Lemma unvisited_le_64 m : (unvisited m <= 64)%nat.
Proof.
  unfold unvisited. rewrite <- size_squares. apply subseteq_size.
  apply subseteq_difference_l. reflexivity.
Qed.

Lemma unvisited_mono m m' : m ⊆ m' -> (unvisited m' <= unvisited m)%nat.
Proof.
  intros H. unfold unvisited. apply subseteq_size.
  intros p Hp. apply elem_of_difference in Hp as [Hp1 Hp2].
  apply elem_of_difference. auto.
Qed.

Lemma unvisited_add m row col :
  on_board row col -> (row, col) ∉ m ->
  (unvisited (m ∪ {[ (row, col) ]}) < unvisited m)%nat.
Proof.
  intros Hon Hnot. unfold unvisited. apply subset_size. apply elem_of_squares in Hon.
  split.
  - intros p Hp. apply elem_of_difference in Hp as [Hp1 Hp2].
    apply elem_of_difference. split; [assumption | ].
    intros Hin. apply Hp2, elem_of_union_l, Hin.
  - intros Hsub.
    assert (Hp : (row, col) ∈ squares ∖ m) by (apply elem_of_difference; auto).
    apply Hsub, elem_of_difference in Hp as [_ Hp].
    apply Hp, elem_of_union_r, elem_of_singleton. reflexivity.
Qed.

(** ** Indexing inside the bounds *)

Lemma py_position_on strict len i :
  0 <= i < Z.of_nat len -> py_position strict len i = Some (Z.to_nat i).
Proof.
  intros H. unfold py_position.
  destruct (Z.leb_spec 0 i), (Z.ltb_spec i (Z.of_nat len)); cbn; try lia. reflexivity.
Qed.

Lemma py_position_strict len i n :
  py_position true len i = Some n -> 0 <= i < Z.of_nat len /\ n = Z.to_nat i.
Proof.
  unfold py_position.
  destruct (Z.leb_spec 0 i), (Z.ltb_spec i (Z.of_nat len)); cbn; try discriminate.
  intros [= <-]. lia.
Qed.

Lemma py_position_relax strict len i n :
  py_position true len i = Some n -> py_position strict len i = Some n.
Proof.
  intros H. apply py_position_strict in H as [H ->]. now apply py_position_on.
Qed.

Lemma py_getitem_on {A : Type} strict (l : list A) i :
  0 <= i < Z.of_nat (length l) -> py_getitem strict l i = l !! Z.to_nat i.
Proof. intros H. unfold py_getitem. now rewrite py_position_on. Qed.

Lemma py_setitem_on {A : Type} strict (l : list A) i x :
  0 <= i < Z.of_nat (length l) -> py_setitem strict l i x = Some (<[Z.to_nat i := x]> l).
Proof. intros H. unfold py_setitem. now rewrite py_position_on. Qed.

Lemma wf_board_row b row :
  wf_board b -> 0 <= row <= 7 -> exists r, b !! Z.to_nat row = Some r /\ length r = 8%nat.
Proof.
  intros [Hlen Hrows] Hr.
  destruct (lookup_lt_is_Some_2 b (Z.to_nat row)) as [r Hlook]; [lia | ].
  exists r. split; [assumption | ].
  rewrite Forall_forall in Hrows. apply Hrows. eapply list_elem_of_lookup_2, Hlook.
Qed.

Lemma get_piece_on_board strict row col s :
  wf_board (board s) -> on_board row col ->
  get_piece strict row col s = Ret (cell_at (board s) row col) s.
Proof.
  intros Hwf [Hr Hc]. pose proof Hwf as [Hlen _].
  destruct (wf_board_row _ _ Hwf Hr) as (r & Hlook & Hlenr).
  destruct (lookup_lt_is_Some_2 r (Z.to_nat col)) as [x Hx]; [lia | ].
  unfold get_piece, cell_at, mbind, M_bind, bind, gets. cbn.
  rewrite py_getitem_on by lia. rewrite Hlook. cbn.
  rewrite py_getitem_on by lia. rewrite Hx. reflexivity.
Qed.

(** ** Runs that return: total correctness under an invariant *)

Section Total.

Variable J : CheckersLogic -> Prop.
Variable R : CheckersLogic -> CheckersLogic -> Prop.
Hypothesis R_refl : forall s, R s s.
Hypothesis R_trans : forall s1 s2 s3, R s1 s2 -> R s2 s3 -> R s1 s3.
Hypothesis J_step : forall s s', J s -> R s s' -> J s'.

Lemma total_ret {A : Type} (a : A) (P : A -> Prop) : P a -> total J R (ret a) P.
Proof using R_refl. intros H s _. split; auto. Qed.

Lemma total_gets {A : Type} (f : CheckersLogic -> A) (P : A -> Prop) :
  (forall s, J s -> P (f s)) -> total J R (gets f) P.
Proof using R_refl. intros H s Hs. split; auto. Qed.

Lemma total_modify (f : CheckersLogic -> CheckersLogic) :
  (forall s, J s -> R s (f s)) -> total J R (modify f) (fun _ => True).
Proof. intros H s Hs. split; auto. Qed.

Lemma total_bind {A B : Type} (m : M A) (f : A -> M B) (P : A -> Prop) (P' : B -> Prop) :
  total J R m P -> (forall a, P a -> total J R (f a) P') -> total J R (m ≫= f) P'.
Proof using R_trans J_step.
  intros Hm Hf s Hs. apply wp_bind.
  eapply wp_mono; [apply Hm, Hs | | auto | auto].
  intros a s1 [H1 Ha]. cbn beta.
  eapply wp_mono; [apply (Hf a Ha s1); eauto | | auto | auto].
  cbn beta. intros b s2 [H2 Hb]. split; eauto.
Qed.

Lemma total_weaken {A : Type} (m : M A) (P P' : A -> Prop) :
  total J R m P -> (forall a, P a -> P' a) -> total J R m P'.
Proof.
  intros Hm HP s Hs. eapply wp_mono; [apply Hm, Hs | | auto | auto].
  cbn beta. intros a s' [? ?]. auto.
Qed.

End Total.

(** ** The capture search returns *)

Lemma search_rel_refl s : search_rel s s.
Proof.
  repeat split; [reflexivity | ]. intros p Hp. apply elem_of_union_l, Hp.
Qed.

Lemma search_rel_trans s1 s2 s3 : search_rel s1 s2 -> search_rel s2 s3 -> search_rel s1 s3.
Proof.
  intros (Hb1 & Hm1 & Hs1) (Hb2 & Hm2 & Hs2). repeat split.
  - congruence.
  - etrans; eassumption.
  - intros p Hp. apply Hs2, elem_of_union in Hp as [Hp | Hp].
    + apply Hs1, Hp.
    + apply elem_of_union_r, Hp.
Qed.

Lemma search_inv_step fuel s s' : search_inv fuel s -> search_rel s s' -> search_inv fuel s'.
Proof.
  intros [Hwf Hlt] (Hb & Hm & _). split; [congruence | ].
  pose proof (unvisited_mono _ _ Hm). lia.
Qed.

Section SearchReturns.

Variable strict : bool.
Variable fuel : nat.

Local Abbreviation tot := (total (search_inv fuel) search_rel).

Lemma tot_ret {A : Type} (a : A) (P : A -> Prop) : P a -> tot (ret a) P.
Proof. apply total_ret, search_rel_refl. Qed.

Lemma tot_bind {A B : Type} (m : M A) (f : A -> M B) (P : A -> Prop) (P' : B -> Prop) :
  tot m P -> (forall a, P a -> tot (f a) P') -> tot (m ≫= f) P'.
Proof. apply total_bind; [apply search_rel_trans | apply search_inv_step]. Qed.

Lemma tot_bind_any {A B : Type} (m : M A) (f : A -> M B) (P' : B -> Prop) :
  tot m (fun _ => True) -> (forall a, tot (f a) P') -> tot (m ≫= f) P'.
Proof. intros Hm Hf. eapply tot_bind; [exact Hm | auto]. Qed.

Lemma tot_len_board : tot len_board (fun n => n = 8).
Proof.
  intros s [[Hlen _] _]. split; [apply search_rel_refl | ]. now rewrite Hlen.
Qed.

Lemma tot_current_player : tot (gets current_player) (fun _ => True).
Proof. apply total_gets; [apply search_rel_refl | auto]. Qed.

Lemma tot_get_piece row col : on_board row col -> tot (get_piece strict row col) (fun _ => True).
Proof.
  intros Hon s [Hwf _]. unfold wp. rewrite get_piece_on_board by assumption.
  split; [apply search_rel_refl | exact I].
Qed.

Lemma tot_col_ge_2 (P : bool -> Prop) col :
  (2 <= col -> P true) -> P false -> tot (col_ge_2 col) P.
Proof.
  intros Ht Hf. apply tot_ret. destruct (Z.leb_spec 2 col); auto.
Qed.

Lemma tot_col_le_len_minus_3 (P : bool -> Prop) col :
  (col <= 5 -> P true) -> P false -> tot (col_le_len_minus_3 col) P.
Proof.
  intros Ht Hf. eapply tot_bind; [apply tot_len_board | ].
  intros n ->. apply tot_ret. destruct (Z.leb_spec col (8 - 3)); auto.
Qed.

Lemma tot_capture_branch continue col_guard mr mc lr lc eaten :
  tot col_guard (fun g => g = true -> on_board mr mc /\ on_board lr lc) ->
  (on_board lr lc -> forall e, tot (continue lr lc e) (fun _ => True)) ->
  tot (capture_branch strict continue col_guard mr mc lr lc eaten) (fun _ => True).
Proof.
  intros Hg Hc. unfold capture_branch.
  eapply tot_bind; [exact Hg | ]. intros [|] Hon; [ | now apply tot_ret].
  destruct Hon as [Hmid Hland]; [reflexivity | ].
  apply tot_bind_any; [apply tot_current_player | intros p].
  apply tot_bind_any; [now apply tot_get_piece | intros x].
  destruct (check_opposite p x); [now apply Hc | now apply tot_ret].
Qed.

(** The part of [check_longer_move] after the visited-set check and the
    base case: the four branches and the final [or]. *)
Lemma tot_branches piece r c er ec eaten :
  on_board r c ->
  (forall r' c' e, on_board r' c' ->
     tot (check_longer_move strict fuel piece r' c' er ec e) (fun _ => True)) ->
  tot (branches strict (fun r' c' e => check_longer_move strict fuel piece r' c' er ec e)
         piece r c eaten)
      (fun _ => True).
Proof.
  intros [Hr Hc] IH.
  apply tot_bind_any.
  { destruct (_ || _); [ | now apply tot_ret].
    eapply tot_bind; [apply tot_len_board | intros n ->].
    destruct (Z.leb_spec r (8 - 3)); [ | now apply tot_ret].
    apply tot_bind_any; [ | intros top_right; apply tot_bind_any; [ | intros; now apply tot_ret]].
    - apply tot_capture_branch; [ | intros; now apply IH].
      apply tot_col_ge_2; [ | discriminate]. unfold on_board. lia.
    - apply tot_capture_branch; [ | intros; now apply IH].
      apply tot_col_le_len_minus_3; [ | discriminate]. unfold on_board. lia. }
  intros top. apply tot_bind_any; [ | intros; now apply tot_ret].
  destruct (_ || _); [ | now apply tot_ret].
  destruct (Z.leb_spec 2 r); [ | now apply tot_ret].
  apply tot_bind_any; [ | intros bottom_right; apply tot_bind_any; [ | intros; now apply tot_ret]].
  - apply tot_capture_branch; [ | intros; now apply IH].
    apply tot_col_le_len_minus_3; [ | discriminate]. unfold on_board. lia.
  - apply tot_capture_branch; [ | intros; now apply IH].
    apply tot_col_ge_2; [ | discriminate]. unfold on_board. lia.
Qed.

End SearchReturns.

(** From a square of the board, on a well-formed board, a search with more
    fuel than there are unvisited squares returns; it leaves its own square
    in the visited set. *)
Lemma check_longer_move_returns strict fuel :
  forall piece r c er ec eaten s,
    on_board r c -> wf_board (board s) -> (unvisited (memo s) < fuel)%nat ->
    wp (check_longer_move strict fuel piece r c er ec eaten) s
       (fun _ s' => search_rel s s' /\ (r, c) ∈ memo s') no_raise False.
Proof.
  induction fuel as [|fuel IH]; intros piece r c er ec eaten s Hon Hwf Hlt; [lia | ].
  cbn [check_longer_move]. apply wp_bind, wp_gets.
  destruct (bool_decide_reflect ((r, c) ∈ memo s)) as [Hin | Hnot].
  { apply wp_ret. split; [apply search_rel_refl | assumption]. }
  apply wp_bind, wp_modify.
  set (s1 := set_memo (memo s ∪ {[(r, c)]}) s).
  assert (Hrel : search_rel s s1).
  { repeat split; cbn.
    - intros p Hp. apply elem_of_union_l, Hp.
    - intros p Hp. apply elem_of_union in Hp as [Hp | Hp]; [apply elem_of_union_l, Hp | ].
      apply elem_of_singleton in Hp as ->. apply elem_of_union_r, elem_of_squares, Hon. }
  assert (Hinv : search_inv fuel s1).
  { split; [exact Hwf | ]. pose proof (unvisited_add (memo s) r c Hon Hnot). cbn. lia. }
  assert (Hmem : (r, c) ∈ memo s1).
  { cbn. apply elem_of_union_r, elem_of_singleton. reflexivity. }
  assert (Hpost : forall (v : pyval) s', search_rel s1 s' /\ True ->
                    search_rel s s' /\ (r, c) ∈ memo s').
  { intros _ s' [Hrel' _]. split; [eapply search_rel_trans; eassumption | ].
    destruct Hrel' as (_ & Hsub & _). apply Hsub, Hmem. }
  destruct ((r =? er) && (c =? ec)).
  { apply wp_bind, wp_modify, wp_ret. apply (Hpost PyNone).
    split; [ | exact I]. repeat split; cbn; [reflexivity | ].
    intros p Hp. apply elem_of_union_l, Hp. }
  eapply wp_mono; [ | exact Hpost | intros ? H; exact H | intros H; exact H].
  apply (tot_branches strict fuel piece r c er ec eaten Hon); [ | exact Hinv].
  intros r' c' e Hon' s2 [Hwf2 Hlt2].
  eapply wp_mono; [apply IH; assumption | | auto | auto].
  cbn beta. intros _ s3 [H3 _]. auto.
Qed.

(** ** Comparing two runs *)

Lemma refines_refl {A : Type} (m : M A) : refines m m.
Proof. intros s a s' H. exact H. Qed.

Lemma refines_bind {A B : Type} (m1 m2 : M A) (f1 f2 : A -> M B) :
  refines m1 m2 -> (forall a, refines (f1 a) (f2 a)) -> refines (m1 ≫= f1) (m2 ≫= f2).
Proof.
  intros Hm Hf s b s'. unfold mbind, M_bind, bind.
  destruct (m1 s) as [a s1 | |] eqn:E1; try discriminate.
  rewrite (Hm _ _ _ E1). apply Hf.
Qed.

Lemma refines_index_or_raise {A : Type} (o1 o2 : option A) :
  (forall a, o1 = Some a -> o2 = Some a) -> refines (index_or_raise o1) (index_or_raise o2).
Proof.
  intros H s a s'. destruct o1 as [x|]; [ | discriminate].
  rewrite (H x eq_refl). auto.
Qed.

Lemma refines_when (c : bool) (m1 m2 : M unit) :
  refines m1 m2 -> refines (when c m1) (when c m2).
Proof. destruct c; cbn; auto using refines_refl. Qed.

Ltac refines_step :=
  lazymatch goal with
  | |- refines ?m ?m => apply refines_refl
  | |- refines (_ ≫= _) (_ ≫= _) => apply refines_bind; [ | intros]
  | |- refines (when _ _) (when _ _) => apply refines_when
  | |- refines (if ?c then _ else _) (if ?c then _ else _) => destruct c
  end.

Section Relax.

Variables strict1 strict2 : bool.
Hypothesis relax : strict2 = true -> strict1 = true.

Lemma py_position_refines len i n :
  py_position strict1 len i = Some n -> py_position strict2 len i = Some n.
Proof using relax.
  destruct strict1 eqn:E1.
  - apply py_position_relax.
  - destruct strict2; [ | trivial]. discriminate relax. reflexivity.
Qed.

Lemma py_getitem_refines {A : Type} (l : list A) i x :
  py_getitem strict1 l i = Some x -> py_getitem strict2 l i = Some x.
Proof using relax.
  unfold py_getitem. destruct (py_position strict1 _ _) eqn:E; [ | discriminate].
  now rewrite (py_position_refines _ _ _ E).
Qed.

Lemma py_setitem_refines {A : Type} (l : list A) i x l' :
  py_setitem strict1 l i x = Some l' -> py_setitem strict2 l i x = Some l'.
Proof using relax.
  unfold py_setitem. destruct (py_position strict1 _ _) eqn:E; [ | discriminate].
  now rewrite (py_position_refines _ _ _ E).
Qed.

Lemma get_piece_refines row col :
  refines (get_piece strict1 row col) (get_piece strict2 row col).
Proof using relax.
  unfold get_piece.
  repeat first [ apply refines_index_or_raise; apply py_getitem_refines | refines_step ].
Qed.

Lemma capture_branch_refines cont1 cont2 col_guard mr mc lr lc eaten :
  (forall r c e, refines (cont1 r c e) (cont2 r c e)) ->
  refines (capture_branch strict1 cont1 col_guard mr mc lr lc eaten)
          (capture_branch strict2 cont2 col_guard mr mc lr lc eaten).
Proof using relax.
  intros Hc. unfold capture_branch.
  repeat first [ apply get_piece_refines | apply Hc | refines_step ].
Qed.

Lemma check_longer_move_refines fuel1 fuel2 piece r c er ec eaten :
  (fuel1 <= fuel2)%nat ->
  refines (check_longer_move strict1 fuel1 piece r c er ec eaten)
          (check_longer_move strict2 fuel2 piece r c er ec eaten).
Proof using relax.
  revert fuel2 r c eaten.
  induction fuel1 as [|fuel1 IH]; intros fuel2 r c eaten Hle; [intros s a s'; discriminate | ].
  destruct fuel2 as [|fuel2]; [lia | ].
  cbn [check_longer_move].
  repeat first
    [ apply capture_branch_refines; intros; apply IH; lia
    | refines_step ].
Qed.

Lemma validate_move_refines fuel1 fuel2 r c er ec :
  (fuel1 <= fuel2)%nat ->
  refines (validate_move strict1 fuel1 r c er ec) (validate_move strict2 fuel2 r c er ec).
Proof using relax.
  intros Hle. unfold validate_move, check_wrong_direction, check_basic_move.
  repeat first
    [ apply get_piece_refines
    | apply check_longer_move_refines; assumption
    | refines_step ].
Qed.

End Relax.

(** ** Validation returns on the board *)

Lemma wp_get_piece {strict} row col s (Q : cell -> CheckersLogic -> Prop) X F :
  wf_board (board s) -> on_board row col ->
  Q (cell_at (board s) row col) s -> wp (get_piece strict row col) s Q X F.
Proof. intros Hwf Hon HQ. unfold wp. now rewrite get_piece_on_board. Qed.

Lemma verdict_ok_accept : verdict_ok (true, ""%string).
Proof. split; cbn; [reflexivity | discriminate]. Qed.

Lemma verdict_ok_reject msg : rejection msg -> verdict_ok (false, msg).
Proof. split; cbn; [discriminate | auto]. Qed.

Lemma validate_move_returns strict fuel r c er ec s :
  wf_board (board s) -> on_board r c -> on_board er ec -> (65 <= fuel)%nat ->
  wp (validate_move strict fuel r c er ec) s
     (fun v s' => verdict_ok v /\ memo s' ⊆ memo s ∪ squares) no_raise False.
Proof.
  intros Hwf Hon Hon' Hfuel. unfold validate_move, rejection.
  assert (Hsub : memo s ⊆ memo s ∪ squares) by (intros p Hp; apply elem_of_union_l, Hp).
  destruct (check_same_move r c er ec).
  { apply wp_ret. split; [apply verdict_ok_reject; unfold rejection; tauto | exact Hsub]. }
  apply wp_bind. unfold check_wrong_direction.
  apply wp_bind, wp_get_piece; [assumption .. | ].
  assert (Hrest : forall wrong : bool,
    wp (if wrong then ret (false, "You have to move forward"%string)
        else if (Z.abs (er - r) =? 1) && (Z.abs (c - ec) =? 1)
        then
          occupied ← check_basic_move strict er ec;
          if (occupied : bool)
          then ret (false, "You can not move there, there is already a piece"%string)
          else ret (true, ""%string)
        else
          modify (set_memo ∅) ;;
          piece ← get_piece strict r c;
          found ← check_longer_move strict fuel piece r c er ec [];
          if negb (truthy found)
          then ret (false, "That move is not allowed"%string)
          else ret (true, ""%string)) s
       (fun v s' => verdict_ok v /\ memo s' ⊆ memo s ∪ squares) no_raise False).
  { intros [|].
    { apply wp_ret. split; [apply verdict_ok_reject; unfold rejection; tauto | exact Hsub]. }
    destruct (_ && _).
    - apply wp_bind. unfold check_basic_move.
      apply wp_bind, wp_get_piece; [assumption .. | ].
      destruct (bool_decide _); apply wp_ret, wp_ret;
        (split; [ | exact Hsub]);
        [apply verdict_ok_reject; unfold rejection; tauto | apply verdict_ok_accept].
    - apply wp_bind, wp_modify, wp_bind, wp_get_piece; [assumption .. | ].
      apply wp_bind.
      eapply wp_mono;
        [ apply check_longer_move_returns; [assumption | exact Hwf | ]
        | | intros ? H; exact H | intros H; exact H ].
      { cbn. pose proof (unvisited_le_64 ∅). lia. }
      cbn beta. intros found s' [(_ & _ & Hm) _].
      assert (Hm' : memo s' ⊆ memo s ∪ squares).
      { intros p Hp. apply Hm in Hp. cbn in Hp.
        apply elem_of_union in Hp as [Hp | Hp]; [ | apply elem_of_union_r, Hp].
        now apply not_elem_of_empty in Hp. }
      destruct (negb (truthy found)); apply wp_ret;
        (split; [ | exact Hm']);
        [apply verdict_ok_reject; unfold rejection; tauto | apply verdict_ok_accept]. }
  wp_if; [exact (Hrest true) | ].
  wp_if; [exact (Hrest true) | exact (Hrest false)].
Qed.

Lemma game_unchanged_refl s : game_unchanged s s.
Proof. repeat split. Qed.

Lemma game_unchanged_trans s1 s2 s3 :
  game_unchanged s1 s2 -> game_unchanged s2 s3 -> game_unchanged s1 s3.
Proof. unfold game_unchanged. intuition congruence. Qed.

Lemma preserves_outcome_object {A : Type} R (m : M A) s s' :
  preserves R m -> outcome_object (m s) = Some s' -> R s s'.
Proof.
  intros H E. specialize (H s). unfold wp in H.
  destruct (m s); cbn in E; congruence.
Qed.

Lemma wf_init_board : wf_board (board init_game).
Proof.
  split; [reflexivity | ].
  apply (bool_decide_unpack _). vm_compute. exact I.
Qed.

(** * Properties of the rule engine *)

(** ** Termination of the capture search *)



(** ** Frame of validation *)

(** C9.  Whatever the object and the coordinates, and whether the call
    accepts the move, rejects it or raises, [validate_move] leaves the board,
    both piece counts, the current player and the winner as they were; only
    [memo] and [eaten_pieces] can differ. *)
Theorem validate_move_frame strict fuel r c er ec s s' :
  outcome_object (validate_move strict fuel r c er ec s) = Some s' ->
  board s' = board s /\ green_pieces s' = green_pieces s /\
  orange_pieces s' = orange_pieces s /\ current_player s' = current_player s /\
  winner s' = winner s.
Proof.
  apply (preserves_outcome_object game_unchanged).
  apply preserves_validate_move.
  - apply game_unchanged_refl.
  - apply game_unchanged_trans.
  - intros; repeat split.
  - intros; repeat split.
  - intros; repeat split.
Qed.

Lemma validate_move_frame_witness :
  exists s',
    outcome_object (validate_move false 65 2 1 4 3 init_game) = Some s' /\
    board s' = board init_game /\ green_pieces s' = green_pieces init_game /\
    orange_pieces s' = orange_pieces init_game /\
    current_player s' = current_player init_game /\ winner s' = winner init_game.
Proof.
  destruct (validate_move false 65 2 1 4 3 init_game) as [v s' | e s' | ] eqn:E;
    [ | | vm_compute in E; discriminate E ].
  - exists s'. split; [reflexivity | ].
    apply (validate_move_frame false 65 2 1 4 3 init_game s'). now rewrite E.
  - exists s'. split; [reflexivity | ].
    apply (validate_move_frame false 65 2 1 4 3 init_game s'). now rewrite E.
Defined.

(** ** Board accesses during validation *)



(** ** Directions of the capture search *)

Lemma search_step_refl s : search_step s s.
Proof. split; [reflexivity | split; reflexivity]. Qed.

Lemma search_step_trans s1 s2 s3 : search_step s1 s2 -> search_step s2 s3 -> search_step s1 s3.
Proof.
  intros (Hb1 & Hp1 & Hm1) (Hb2 & Hp2 & Hm2).
  repeat split; [congruence | congruence | etrans; eassumption].
Qed.

Lemma search_step_memo_add s p : search_step s (set_memo (memo s ∪ {[ p ]}) s).
Proof.
  split; [reflexivity | split; [reflexivity | ]].
  cbn. intros q Hq. apply elem_of_union_l, Hq.
Qed.

Lemma search_step_eaten s e : search_step s (set_eaten_pieces e s).
Proof. split; [reflexivity | split; reflexivity]. Qed.

Lemma preserves_weaken {A : Type} (R R' : CheckersLogic -> CheckersLogic -> Prop) (m : M A) :
  (forall s s', R s s' -> R' s s') -> preserves R m -> preserves R' m.
Proof.
  intros HR Hm s. eapply wp_mono; [apply Hm | | | ]; cbn beta; auto.
Qed.

Lemma search_step_check_longer_move strict fuel piece r c er ec eaten :
  preserves search_step (check_longer_move strict fuel piece r c er ec eaten).
Proof.
  apply preserves_check_longer_move;
    [ exact search_step_refl | exact search_step_trans
    | exact search_step_memo_add | exact search_step_eaten ].
Qed.

(** A call of the search leaves the square it was called on in [memo]:
    either it was there already, or the call added it. *)
Lemma check_longer_move_visits strict fuel piece r c er ec eaten s :
  wp (check_longer_move strict fuel piece r c er ec eaten) s
     (fun _ s' => search_step s s' /\ (r, c) ∈ memo s') any_raise True.
Proof.
  destruct fuel as [|fuel]; [exact I | ].
  cbn [check_longer_move]. apply wp_bind, wp_gets.
  destruct (bool_decide_reflect ((r, c) ∈ memo s)) as [Hin | Hnot].
  { apply wp_ret. split; [apply search_step_refl | assumption]. }
  apply wp_bind, wp_modify.
  set (s1 := set_memo (memo s ∪ {[(r, c)]}) s).
  assert (Hstep : search_step s s1) by apply search_step_memo_add.
  assert (Hmem : (r, c) ∈ memo s1).
  { cbn. apply elem_of_union_r, elem_of_singleton. reflexivity. }
  eapply wp_mono with (Q := fun _ s' => search_step s1 s') (X := search_step s1) (F := True);
    [ | | exact (fun _ _ => I) | exact id ].
  2:{ cbn beta. intros _ s' Hs'. split; [eapply search_step_trans; eassumption | ].
      destruct Hs' as (_ & _ & Hsub). apply Hsub, Hmem. }
  assert (Hrest : preserves search_step
    (if (r =? er) && (c =? ec)
     then modify (set_eaten_pieces eaten) ;; ret (PyBool true)
     else branches strict (fun r' c' e => check_longer_move strict fuel piece r' c' er ec e)
            piece r c eaten)).
  { pose proof search_step_refl. pose proof search_step_trans.
    destruct (_ && _).
    - repeat first [ apply preserves_modify; intros; apply search_step_eaten | preserves_step ].
    - apply preserves_branches; auto. intros. apply search_step_check_longer_move. }
  exact (Hrest s1).
Qed.

Lemma wp_partial_mono {A : Type} (m : M A) s (Q Q' : A -> CheckersLogic -> Prop) :
  wp m s Q any_raise True -> (forall a s', Q a s' -> Q' a s') -> wp m s Q' any_raise True.
Proof. intros H HQ. eapply wp_mono; [exact H | exact HQ | exact (fun _ H => H) | exact id]. Qed.

Lemma preserves_partial {A : Type} R (m : M A) s :
  preserves R m -> wp m s (fun _ s' => R s s') any_raise True.
Proof.
  intros H. eapply wp_mono; [apply H | | | ]; cbn beta; auto. intros; exact I.
Qed.

Section Reaches.

Variable strict : bool.
Variable s0 : CheckersLogic.
Variables lr lc : Z.
Hypothesis wf0 : wf_board (board s0).

Lemma reaches_bind_l {A B : Type} (m : M A) (f : A -> M B) :
  reaches s0 lr lc m -> (forall a, preserves search_step (f a)) -> reaches s0 lr lc (m ≫= f).
Proof.
  intros Hm Hf s Hs. apply wp_bind.
  eapply wp_partial_mono; [apply Hm, Hs | ].
  cbn beta. intros a s1 [H1 Hin].
  eapply wp_partial_mono; [apply preserves_partial, Hf | ].
  cbn beta. intros b s2 H2. split; [eapply search_step_trans; eassumption | ].
  destruct H2 as (_ & _ & Hsub). apply Hsub, Hin.
Qed.

Lemma reaches_bind_r {A B : Type} (m : M A) (f : A -> M B) :
  preserves search_step m -> (forall a, reaches s0 lr lc (f a)) -> reaches s0 lr lc (m ≫= f).
Proof using Type.
  intros Hm Hf s [Hb Hp]. apply wp_bind.
  eapply wp_partial_mono; [apply preserves_partial, Hm | ].
  cbn beta. intros a s1 H1.
  eapply wp_partial_mono; [apply Hf | ].
  - destruct H1 as (Hb1 & Hp1 & _). split; congruence.
  - cbn beta. intros b s2 [H2 Hin]. split; [eapply search_step_trans; eassumption | exact Hin].
Qed.

Lemma reaches_len_board {B : Type} (f : Z -> M B) : reaches s0 lr lc (f 8) -> reaches s0 lr lc (len_board ≫= f).
Proof using wf0.
  intros Hf s Hs. apply wp_bind, wp_len_board.
  destruct Hs as [Hb Hp]. rewrite Hb. destruct wf0 as [-> _]. apply Hf. now split.
Qed.

Lemma reaches_capture_branch continue col_guard mr mc eaten :
  (forall s, same_position s0 s -> col_guard s = Ret true s) ->
  on_board mr mc ->
  check_opposite (current_player s0) (cell_at (board s0) mr mc) = true ->
  (forall e s, wp (continue lr lc e) s
                  (fun _ s' => search_step s s' /\ (lr, lc) ∈ memo s') any_raise True) ->
  reaches s0 lr lc (capture_branch strict continue col_guard mr mc lr lc eaten).
Proof using wf0.
  intros Hg Hon Hopp Hc s Hs. unfold capture_branch.
  apply wp_bind. unfold wp at 1. rewrite (Hg s Hs).
  destruct Hs as [Hb Hp].
  apply wp_bind, wp_gets, wp_bind, wp_get_piece; [now rewrite Hb | assumption | ].
  rewrite Hb, Hp, Hopp. apply Hc.
Qed.

Lemma col_ge_2_true col s : 2 <= col -> col_ge_2 col s = Ret true s.
Proof. intros H. unfold col_ge_2, ret. now destruct (Z.leb_spec 2 col); [ | lia]. Qed.

Lemma col_le_len_minus_3_true col s :
  same_position s0 s -> col <= 5 -> col_le_len_minus_3 col s = Ret true s.
Proof using wf0.
  intros [Hb _] H. unfold col_le_len_minus_3, len_board, mbind, M_bind, bind, gets, ret.
  rewrite Hb. destruct wf0 as [-> _].
  replace (col <=? _) with true; [reflexivity | ].
  symmetry. apply Z.leb_le. cbn. lia.
Qed.

End Reaches.

Ltac keeps :=
  pose proof search_step_refl; pose proof search_step_trans;
  pose proof (preserves_col_guards search_step search_step_refl search_step_trans);
  repeat first
    [ apply preserves_capture_branch;
        [ assumption | assumption
        | match goal with Hg : forall c, _ /\ _ |- _ => apply Hg end
        | intros; match goal with Hk : forall r c e, preserves _ _ |- _ => apply Hk end ]
    | preserves_step ].

Section ReachesBranches.

Variable strict : bool.
Variable s0 : CheckersLogic.
Hypothesis wf0 : wf_board (board s0).
Variable continue : Z -> Z -> list (Z * Z) -> M pyval.
Hypothesis continue_keeps : forall r c e, preserves search_step (continue r c e).
Hypothesis continue_visits :
  forall r c e s, wp (continue r c e) s
                     (fun _ s' => search_step s s' /\ (r, c) ∈ memo s') any_raise True.
Variable piece : cell.
Variables r c : Z.
Variable eaten : list (Z * Z).
Hypothesis on : on_board r c.

Lemma reaches_top_right :
  moves_up piece = true -> on_board (r + 2) (c - 2) ->
  check_opposite (current_player s0) (cell_at (board s0) (r + 1) (c - 1)) = true ->
  reaches s0 (r + 2) (c - 2) (branches strict continue piece r c eaten).
Proof using wf0 continue_keeps continue_visits on.
  intros Hup Hland Hopp. destruct on as [? ?], Hland as [? ?].
  apply reaches_bind_l; [ | intros; keeps].
  rewrite Hup. apply reaches_len_board; [assumption | ].
  replace (r <=? 8 - 3) with true by (symmetry; apply Z.leb_le; lia).
  apply reaches_bind_l; [ | intros; keeps].
  apply reaches_capture_branch; try assumption.
  - intros. apply col_ge_2_true. lia.
  - unfold on_board. lia.
  - intros. apply continue_visits.
Qed.

Lemma reaches_top_left :
  moves_up piece = true -> on_board (r + 2) (c + 2) ->
  check_opposite (current_player s0) (cell_at (board s0) (r + 1) (c + 1)) = true ->
  reaches s0 (r + 2) (c + 2) (branches strict continue piece r c eaten).
Proof using wf0 continue_keeps continue_visits on.
  intros Hup Hland Hopp. destruct on as [? ?], Hland as [? ?].
  apply reaches_bind_l; [ | intros; keeps].
  rewrite Hup. apply reaches_len_board; [assumption | ].
  replace (r <=? 8 - 3) with true by (symmetry; apply Z.leb_le; lia).
  apply reaches_bind_r; [keeps | intros top_right].
  apply reaches_bind_l; [ | intros; keeps].
  apply reaches_capture_branch; try assumption.
  - intros. apply (col_le_len_minus_3_true s0); [assumption .. | lia].
  - unfold on_board. lia.
  - intros. apply continue_visits.
Qed.

Lemma reaches_bottom_right :
  moves_down piece = true -> on_board (r - 2) (c + 2) ->
  check_opposite (current_player s0) (cell_at (board s0) (r - 1) (c + 1)) = true ->
  reaches s0 (r - 2) (c + 2) (branches strict continue piece r c eaten).
Proof using wf0 continue_keeps continue_visits on.
  intros Hdown Hland Hopp. destruct on as [? ?], Hland as [? ?].
  apply reaches_bind_r; [keeps | intros top].
  apply reaches_bind_l; [ | intros; keeps].
  rewrite Hdown.
  replace (2 <=? r) with true by (symmetry; apply Z.leb_le; lia).
  apply reaches_bind_l; [ | intros; keeps].
  apply reaches_capture_branch; try assumption.
  - intros. apply (col_le_len_minus_3_true s0); [assumption .. | lia].
  - unfold on_board. lia.
  - intros. apply continue_visits.
Qed.

Lemma reaches_bottom_left :
  moves_down piece = true -> on_board (r - 2) (c - 2) ->
  check_opposite (current_player s0) (cell_at (board s0) (r - 1) (c - 1)) = true ->
  reaches s0 (r - 2) (c - 2) (branches strict continue piece r c eaten).
Proof using wf0 continue_keeps continue_visits on.
  intros Hdown Hland Hopp. destruct on as [? ?], Hland as [? ?].
  apply reaches_bind_r; [keeps | intros top].
  apply reaches_bind_l; [ | intros; keeps].
  rewrite Hdown.
  replace (2 <=? r) with true by (symmetry; apply Z.leb_le; lia).
  apply reaches_bind_r; [keeps | intros bottom_right].
  apply reaches_bind_l; [ | intros; keeps].
  apply reaches_capture_branch; try assumption.
  - intros. apply col_ge_2_true. lia.
  - unfold on_board. lia.
  - intros. apply continue_visits.
Qed.

End ReachesBranches.

Lemma rows_from_refl ok s : rows_from ok s s.
Proof. intros p Hp. now left. Qed.

Lemma rows_from_trans ok s1 s2 s3 :
  rows_from ok s1 s2 -> rows_from ok s2 s3 -> rows_from ok s1 s3.
Proof.
  intros H1 H2 p Hp. destruct (H2 p Hp) as [Hp2 | Hok]; [ | now right]. apply H1, Hp2.
Qed.

Lemma rows_from_weaken (ok ok' : Z -> Prop) s s' :
  (forall row, ok row -> ok' row) -> rows_from ok s s' -> rows_from ok' s s'.
Proof. intros Hok H p Hp. destruct (H p Hp); [now left | right; auto]. Qed.

Lemma rows_from_memo_add (ok : Z -> Prop) r c s :
  ok r -> rows_from ok s (set_memo (memo s ∪ {[ (r, c) ]}) s).
Proof.
  intros Hr p Hp. cbn in Hp. apply elem_of_union in Hp as [Hp | Hp]; [now left | ].
  apply elem_of_singleton in Hp as ->. now right.
Qed.

Section Rows.

Variable strict : bool.
Variables er ec : Z.

Ltac rows_steps IH Hrefl Htrans :=
  repeat first
    [ apply preserves_capture_branch;
        [ exact Hrefl | exact Htrans
        | apply (preserves_col_guards _ Hrefl Htrans)
        | intros; eapply preserves_weaken; [ | apply IH];
          intros ? ?; apply rows_from_weaken; intros; lia ]
    | apply preserves_modify; intros;
        first [ apply rows_from_memo_add; lia | intros p Hp; left; exact Hp ]
    | preserves_step ].

(** A green man only visits squares at its row or above. *)
Lemma green_man_rows fuel :
  forall r c eaten,
    preserves (rows_from (fun row => r <= row))
      (check_longer_move strict fuel GREEN_PIECE r c er ec eaten).
Proof.
  induction fuel as [|fuel IH]; intros r c eaten; [apply preserves_out_of_fuel | ].
  cbn [check_longer_move].
  change (bool_decide (GREEN_PIECE = GREEN_PIECE) || bool_decide (GREEN_PIECE = GREEN_QUEEN)
          || bool_decide (GREEN_PIECE = ORANGE_QUEEN)) with true.
  change (bool_decide (GREEN_PIECE = ORANGE_PIECE) || bool_decide (GREEN_PIECE = GREEN_QUEEN)
          || bool_decide (GREEN_PIECE = ORANGE_QUEEN)) with false.
  cbv iota.
  pose proof (rows_from_refl (fun row => r <= row)) as Hrefl.
  pose proof (rows_from_trans (fun row => r <= row)) as Htrans.
  rows_steps IH Hrefl Htrans.
Qed.

(** An orange man only visits squares at its row or below. *)
Lemma orange_man_rows fuel :
  forall r c eaten,
    preserves (rows_from (fun row => row <= r))
      (check_longer_move strict fuel ORANGE_PIECE r c er ec eaten).
Proof.
  induction fuel as [|fuel IH]; intros r c eaten; [apply preserves_out_of_fuel | ].
  cbn [check_longer_move].
  change (bool_decide (ORANGE_PIECE = GREEN_PIECE) || bool_decide (ORANGE_PIECE = GREEN_QUEEN)
          || bool_decide (ORANGE_PIECE = ORANGE_QUEEN)) with false.
  change (bool_decide (ORANGE_PIECE = ORANGE_PIECE) || bool_decide (ORANGE_PIECE = GREEN_QUEEN)
          || bool_decide (ORANGE_PIECE = ORANGE_QUEEN)) with true.
  cbv iota.
  pose proof (rows_from_refl (fun row => row <= r)) as Hrefl.
  pose proof (rows_from_trans (fun row => row <= r)) as Htrans.
  rows_steps IH Hrefl Htrans.
Qed.

End Rows.

Lemma bind_gets {A B : Type} (f : CheckersLogic -> A) (k : A -> M B) s :
  (gets f ≫= k) s = k (f s) s.
Proof. reflexivity. Qed.

Lemma bind_modify {B : Type} (f : CheckersLogic -> CheckersLogic) (k : unit -> M B) s :
  (modify f ≫= k) s = k tt (f s).
Proof. reflexivity. Qed.

(** A call on a square not visited yet, other than the target, marks the
    square and goes through the four branches. *)
Lemma check_longer_move_fresh strict fuel piece r c er ec eaten s :
  (r, c) ∉ memo s -> (r, c) <> (er, ec) ->
  check_longer_move strict (S fuel) piece r c er ec eaten s =
  branches strict (fun r' c' e => check_longer_move strict fuel piece r' c' er ec e)
    piece r c eaten (set_memo (memo s ∪ {[ (r, c) ]}) s).
Proof.
  intros Hnot Hne. cbn [check_longer_move].
  rewrite bind_gets, bool_decide_eq_false_2 by assumption.
  rewrite bind_modify.
  replace ((r =? er) && (c =? ec)) with false; [reflexivity | ].
  destruct (Z.eqb_spec r er), (Z.eqb_spec c ec); subst; try reflexivity. congruence.
Qed.

Lemma wf_king_position : wf_board (board king_position).
Proof.
  split; [reflexivity | ].
  apply (bool_decide_unpack _). vm_compute. exact I.
Qed.

(** ** Direction eligibility *)



(** ** Verdicts of validation *)

Lemma bind_ret_eq {A B : Type} (m : M A) (k : A -> M B) s a s' :
  m s = Ret a s' -> (m ≫= k) s = k a s'.
Proof. intros E. unfold mbind, M_bind, bind. now rewrite E. Qed.

Lemma check_same_move_step r c er ec :
  Z.abs (er - r) = 1 -> check_same_move r c er ec = false.
Proof.
  intros H. unfold check_same_move.
  destruct (Z.eqb_spec r er); [lia | reflexivity].
Qed.

Lemma check_basic_move_eq strict er ec s d :
  get_piece strict er ec s = Ret d s ->
  check_basic_move strict er ec s = Ret (bool_decide (d <> EMPTY)) s.
Proof.
  intros H. unfold check_basic_move. rewrite (bind_ret_eq _ _ _ _ _ H).
  destruct (bool_decide _); reflexivity.
Qed.

Lemma check_wrong_direction_eq strict r c er s x :
  get_piece strict r c s = Ret x s ->
  check_wrong_direction strict r c er s =
  Ret (bool_decide (x = GREEN_PIECE) && (er - r <=? 0)
       || bool_decide (x = ORANGE_PIECE) && (0 <=? er - r)) s.
Proof.
  intros H. unfold check_wrong_direction. rewrite (bind_ret_eq _ _ _ _ _ H).
  destruct (_ && _); [reflexivity | ]. destruct (_ && _); reflexivity.
Qed.

(** A single diagonal step that passed the direction check is judged on
    the content of the destination alone, and the object is not touched. *)
Lemma validate_move_single_step strict fuel r c er ec s d :
  Z.abs (er - r) = 1 -> Z.abs (c - ec) = 1 ->
  check_wrong_direction strict r c er s = Ret false s ->
  get_piece strict er ec s = Ret d s ->
  validate_move strict fuel r c er ec s =
  Ret (if bool_decide (d = EMPTY) then (true, ""%string)
       else (false, "You can not move there, there is already a piece"%string)) s.
Proof.
  intros Hr Hc Hdir Hd. unfold validate_move.
  rewrite check_same_move_step by assumption.
  rewrite (bind_ret_eq _ _ _ _ _ Hdir).
  rewrite Hr, Hc. cbn [Z.eqb Pos.eqb andb].
  rewrite (bind_ret_eq _ _ _ _ _ (check_basic_move_eq _ _ _ _ _ Hd)).
  destruct (decide (d = EMPTY)) as [-> | Hne]; [reflexivity | ].
  rewrite (bool_decide_eq_true_2 _ Hne), (bool_decide_eq_false_2 _ Hne). reflexivity.
Qed.

(** C2, as the code has it.  The wrong-direction check applies to men only.
    On a single diagonal step, a king of either colour is judged on the
    destination alone, whichever way it goes: accepted when the destination
    is empty, rejected as occupied otherwise.  A green man stepping to a
    lower row and an orange man stepping to a higher row are rejected with
    the forward message. *)
Theorem single_step_direction_check strict fuel r c er ec s x d :
  get_piece strict r c s = Ret x s -> get_piece strict er ec s = Ret d s ->
  Z.abs (er - r) = 1 -> Z.abs (c - ec) = 1 ->
  (x = GREEN_QUEEN \/ x = ORANGE_QUEEN ->
     validate_move strict fuel r c er ec s =
     Ret (if bool_decide (d = EMPTY) then (true, ""%string)
          else (false, "You can not move there, there is already a piece"%string)) s) /\
  (x = GREEN_PIECE /\ er < r \/ x = ORANGE_PIECE /\ r < er ->
     validate_move strict fuel r c er ec s =
     Ret (false, "You have to move forward"%string) s).
Proof.
  intros Hx Hd Hr Hc. split.
  - intros Hking. apply validate_move_single_step; try assumption.
    rewrite (check_wrong_direction_eq _ _ _ _ _ _ Hx).
    destruct Hking as [-> | ->]; reflexivity.
  - intros Hman. unfold validate_move.
    rewrite check_same_move_step by assumption.
    rewrite (bind_ret_eq _ _ _ _ _ (check_wrong_direction_eq _ _ _ _ _ _ Hx)).
    destruct Hman as [[-> Hlt] | [-> Hlt]].
    + replace (er - r <=? 0) with true by (symmetry; apply Z.leb_le; lia). reflexivity.
    + replace (0 <=? er - r) with true by (symmetry; apply Z.leb_le; lia). reflexivity.
Qed.

Lemma single_step_direction_check_witness :
  validate_move false 65 4 3 3 2 free_king_position =
  Ret (if bool_decide (EMPTY = EMPTY) then (true, ""%string)
       else (false, "You can not move there, there is already a piece"%string))
      free_king_position.
Proof.
  assert (Hx : get_piece false 4 3 free_king_position = Ret GREEN_QUEEN free_king_position)
    by reflexivity.
  assert (Hd : get_piece false 3 2 free_king_position = Ret EMPTY free_king_position)
    by reflexivity.
  assert (Hr : Z.abs (3 - 4) = 1) by reflexivity.
  assert (Hc : Z.abs (3 - 2) = 1) by reflexivity.
  apply (proj1 (single_step_direction_check false 65 4 3 3 2 free_king_position
                  GREEN_QUEEN EMPTY Hx Hd Hr Hc)).
  left. reflexivity.
Defined.

(** A green king stepping back from (4,3) to the empty (3,2) is accepted,
    not rejected with the forward message. *)
Lemma king_steps_backward :
  validate_move false 65 4 3 3 2 free_king_position = Ret (true, ""%string) free_king_position.
Proof. vm_compute. reflexivity. Qed.




(** C7, as the code has it.  With the four coordinates within 0..7 on a
    well-formed board, [validate_move] returns a pair: the text is empty when
    the verdict is valid and is one of the four rejection messages when it is
    not. *)
Theorem validate_move_verdict strict fuel r c er ec s :
  wf_board (board s) -> on_board r c -> on_board er ec -> (65 <= fuel)%nat ->
  exists valid msg s',
    validate_move strict fuel r c er ec s = Ret (valid, msg) s' /\
    (valid = true -> msg = ""%string) /\
    (valid = false ->
       msg = "You have to move the piece"%string \/
       msg = "You have to move forward"%string \/
       msg = "You can not move there, there is already a piece"%string \/
       msg = "That move is not allowed"%string).
Proof.
  intros Hwf Hon Hon' Hfuel.
  pose proof (validate_move_returns strict fuel r c er ec s Hwf Hon Hon' Hfuel) as H.
  apply wp_returns in H as ([valid msg] & s' & E & [Hok Hrej] & _).
  exists valid, msg, s'. auto.
Qed.

Lemma validate_move_verdict_witness :
  exists valid msg s',
    validate_move false 65 2 1 4 3 init_game = Ret (valid, msg) s' /\
    (valid = true -> msg = ""%string) /\
    (valid = false ->
       msg = "You have to move the piece"%string \/
       msg = "You have to move forward"%string \/
       msg = "You can not move there, there is already a piece"%string \/
       msg = "That move is not allowed"%string).
Proof.
  assert (H1 : on_board 2 1) by (unfold on_board; lia).
  assert (H2 : on_board 4 3) by (unfold on_board; lia).
  assert (H3 : (65 <= 65)%nat) by lia.
  exact (validate_move_verdict false 65 2 1 4 3 init_game wf_init_board H1 H2 H3).
Defined.

(** The coordinates are not checked: on the starting position, asking to
    move from row 8 raises [IndexError]. *)
Lemma validate_move_raises_off_board :
  validate_move false 65 8 0 7 1 init_game = Raise IndexError init_game.
Proof. vm_compute. reflexivity. Qed.

(** ** A single capture *)

(** A well-formed board written out as eight rows of eight cells. *)
Ltac explicit_board b Hwf :=
  let Hlen := fresh "Hlen" in
  let Hrows := fresh "Hrows" in
  destruct Hwf as [Hlen Hrows];
  do 8 (destruct b as [|? b]; [discriminate Hlen | ]);
  destruct b; [ | discriminate Hlen]; clear Hlen;
  repeat match goal with
         | H : Forall _ (_ :: _) |- _ => apply Forall_cons in H as [? H]
         end;
  clear Hrows;
  repeat match goal with
         | H : length ?l = 8%nat |- _ =>
             is_var l;
             do 8 (destruct l as [|? l]; [discriminate H | ]);
             destruct l; [clear H | discriminate H]
         end.

Lemma perform_move_split strict init_row init_col end_row end_col s :
  perform_move strict init_row init_col end_row end_col s =
  (before_check_end strict init_row init_col end_row end_col ;; check_end ;; ret true) s.
Proof.
  unfold perform_move, before_check_end, mbind, M_bind, bind.
  repeat match goal with
         | |- context [match ?x with Ret _ _ => _ | Raise _ _ => _ | OutOfFuel => _ end] =>
             destruct x; try reflexivity
         end.
Qed.

(** [check_end] only writes [winner]: Green wins when no orange piece is
    counted, Orange when no green piece is counted and some orange one is. *)
Lemma check_end_spec s :
  exists w,
    check_end s = Ret tt (set_winner w s) /\
    (orange_pieces s = 0 -> w = Some PLAYER_GREEN) /\
    (green_pieces s = 0 -> orange_pieces s <> 0 -> w = Some PLAYER_ORANGE) /\
    (green_pieces s <> 0 -> orange_pieces s <> 0 -> w = winner s).
Proof.
  unfold check_end, mbind, M_bind, bind, gets, when, modify, ret. cbn.
  destruct s as [b g o e p w m]. cbn.
  destruct (Z.eqb_spec g 0); cbn; destruct (Z.eqb_spec o 0); cbn;
    eexists; (split; [reflexivity | ]); repeat split; intros; congruence.
Qed.

(** C4.  Green to move, a green man on (3,2), an orange man on (4,3) and
    (5,4) empty, whatever else is on the board: [validate_move 3 2 5 4]
    accepts and leaves exactly (4,3) pending; the [perform_move] that follows
    empties (4,3) and takes exactly one off [orange_pieces]. *)
Theorem single_capture strict fuel s :
  wf_board (board s) -> (65 <= fuel)%nat -> current_player s = PLAYER_GREEN ->
  get_piece strict 3 2 s = Ret GREEN_PIECE s ->
  get_piece strict 4 3 s = Ret ORANGE_PIECE s ->
  get_piece strict 5 4 s = Ret EMPTY s ->
  exists s1 s2,
    validate_move strict fuel 3 2 5 4 s = Ret (true, ""%string) s1 /\
    eaten_pieces s1 = [(4, 3)] /\
    perform_move strict 3 2 5 4 s1 = Ret true s2 /\
    get_piece strict 4 3 s2 = Ret EMPTY s2 /\
    orange_pieces s2 = orange_pieces s - 1.
Proof.
  intros Hwf Hfuel Hplayer H32 H43 H54.
  destruct s as [b g o e p w m]. cbn in Hwf, Hplayer. subst p.
  do 3 (destruct fuel as [|fuel]; [lia | ]). clear Hfuel.
  explicit_board b Hwf.
  vm_compute in H32. injection H32 as ->.
  vm_compute in H43. injection H43 as ->.
  vm_compute in H54. injection H54 as ->.
  match goal with
  | |- context [validate_move _ _ _ _ _ _ ?s] =>
      assert (Hvalid : exists visited,
                validate_move strict (S (S (S fuel))) 3 2 5 4 s =
                Ret (true, ""%string) (set_eaten_pieces [(4, 3)] (set_memo visited s)));
      [ let x := eval vm_compute in (cell_at (board s) 4 1) in
        let y := eval vm_compute in (cell_at (board s) 6 1) in
        destruct x; destruct y
      | ]
  end.
  1-25: match goal with
        | |- exists visited, ?v = _ => set (out := v); vm_compute in out
        end.
  1-25: lazymatch goal with
        | H := Ret _ (mkCheckersLogic _ _ _ _ _ _ ?visited) |- _ => exists visited
        end.
  1-25: subst out; reflexivity.
  destruct Hvalid as [visited Hvalid].
  match type of Hvalid with
  | _ = Ret _ ?s1 =>
      set (out := before_check_end strict 3 2 5 4 s1);
      assert (Hout : before_check_end strict 3 2 5 4 s1 = out) by reflexivity;
      vm_compute in out
  end.
  lazymatch goal with
  | H := Ret _ ?s6 |- _ => destruct (check_end_spec s6) as (w' & Hend & _)
  end.
  subst out.
  eexists. eexists. split; [exact Hvalid | ]. split; [reflexivity | ].
  rewrite perform_move_split.
  rewrite (bind_ret_eq _ _ _ _ _ Hout), (bind_ret_eq _ _ _ _ _ Hend).
  split; [reflexivity | ]. split; reflexivity.
Qed.

Lemma single_capture_witness :
  exists s1 s2,
    validate_move false 65 3 2 5 4 capture_position = Ret (true, ""%string) s1 /\
    eaten_pieces s1 = [(4, 3)] /\
    perform_move false 3 2 5 4 s1 = Ret true s2 /\
    get_piece false 4 3 s2 = Ret EMPTY s2 /\
    orange_pieces s2 = orange_pieces capture_position - 1.
Proof.
  assert (Hwf : wf_board (board capture_position)).
  { split; [reflexivity | ]. apply (bool_decide_unpack _). vm_compute. exact I. }
  assert (Hfuel : (65 <= 65)%nat) by lia.
  assert (Hp : current_player capture_position = PLAYER_GREEN) by reflexivity.
  assert (H32 : get_piece false 3 2 capture_position = Ret GREEN_PIECE capture_position)
    by reflexivity.
  assert (H43 : get_piece false 4 3 capture_position = Ret ORANGE_PIECE capture_position)
    by reflexivity.
  assert (H54 : get_piece false 5 4 capture_position = Ret EMPTY capture_position)
    by reflexivity.
  exact (single_capture false 65 capture_position Hwf Hfuel Hp H32 H43 H54).
Defined.

(** ** The winner *)

(** Runs the call on the left of the first equation and provides the object
    it returns. *)
Ltac run_and_provide :=
  lazymatch goal with
  | |- exists s', ?m = Ret _ s' /\ _ =>
      let o := eval vm_compute in m in
      lazymatch o with
      | Ret _ ?after => exists after; split; [vm_compute; reflexivity | ]
      end
  | |- exists s', ?m = Raise _ s' /\ _ =>
      let o := eval vm_compute in m in
      lazymatch o with
      | Raise _ ?after => exists after; split; [vm_compute; reflexivity | ]
      end
  end.

Lemma mover_unchanged_refl s : mover_unchanged s s.
Proof. split; reflexivity. Qed.

Lemma mover_unchanged_trans s1 s2 s3 :
  mover_unchanged s1 s2 -> mover_unchanged s2 s3 -> mover_unchanged s1 s3.
Proof. intros [H1 H1'] [H2 H2']. split; congruence. Qed.

Section MoverUnchanged.

Variable strict : bool.

Lemma mover_unchanged_set_piece row col value :
  preserves mover_unchanged (set_piece strict row col value).
Proof.
  pose proof mover_unchanged_refl. pose proof mover_unchanged_trans.
  unfold set_piece.
  repeat first [ apply preserves_modify; intros; split; reflexivity | preserves_step ].
Qed.

Lemma mover_unchanged_eat_loop pieces counter :
  preserves mover_unchanged (eat_loop strict pieces counter).
Proof.
  pose proof mover_unchanged_refl. pose proof mover_unchanged_trans.
  revert counter. induction pieces as [|piece rest IH]; intros counter; cbn [eat_loop].
  - preserves_step.
  - preserves_step; [apply mover_unchanged_set_piece | apply IH].
Qed.

(** [eat_pieces] takes the captured pieces off the count of the other
    side. *)
Lemma mover_unchanged_eat_pieces : preserves mover_unchanged (eat_pieces strict).
Proof.
  intros s. unfold eat_pieces.
  apply wp_bind, wp_gets, wp_bind.
  eapply wp_mono; [apply mover_unchanged_eat_loop | | intros ? H; exact H | exact id].
  cbn beta. intros counter s1 [Hp Hc].
  apply wp_bind, wp_gets, wp_bind.
  unfold mover_unchanged, own_pieces in *.
  destruct (current_player s1) eqn:E1, (current_player s) eqn:E0; try discriminate Hp;
    cbn [decide decide_rel player_eq_dec];
    apply wp_bind, wp_gets, wp_modify, wp_modify; cbn;
    rewrite E1; (split; [reflexivity | exact Hc]).
Qed.

Lemma mover_unchanged_before_check_end init_row init_col end_row end_col :
  preserves mover_unchanged (before_check_end strict init_row init_col end_row end_col).
Proof.
  pose proof mover_unchanged_refl. pose proof mover_unchanged_trans.
  unfold before_check_end, check_piece_promotion_and_promote.
  repeat first
    [ apply preserves_get_piece; assumption
    | apply mover_unchanged_set_piece
    | apply mover_unchanged_eat_pieces
    | preserves_step ].
Qed.

End MoverUnchanged.

(** ** The shape of the board is an invariant *)

Section ShapeKept.

Variable strict : bool.

Lemma shape_kept_refl s : shape_kept s s.
Proof. intros H. exact H. Qed.

Lemma shape_kept_trans s1 s2 s3 : shape_kept s1 s2 -> shape_kept s2 s3 -> shape_kept s1 s3.
Proof. unfold shape_kept. auto. Qed.

(** An assignment to a cell replaces a row by one of the same length. *)
Lemma shape_kept_set_piece row col value :
  preserves shape_kept (set_piece strict row col value).
Proof.
  intros s. unfold set_piece. apply wp_bind, wp_gets, wp_bind.
  apply wp_index_or_raise; [ | intros; apply shape_kept_refl].
  intros r Hr. apply wp_bind.
  apply wp_index_or_raise; [ | intros; apply shape_kept_refl].
  intros r' Hr'. apply wp_bind.
  apply wp_index_or_raise; [ | intros; apply shape_kept_refl].
  intros b' Hb'. apply wp_modify. intros [Hlen Hrows]. cbn.
  unfold py_getitem, py_setitem in *.
  destruct (py_position strict (length (board s)) row) as [n|] eqn:En; [ | discriminate].
  destruct (py_position strict (length r) col) as [k|] eqn:Ek; [ | discriminate].
  injection Hr' as <-. injection Hb' as <-.
  split; [now rewrite length_insert | ].
  apply Forall_insert; [assumption | ].
  rewrite length_insert. rewrite Forall_forall in Hrows.
  apply Hrows. eapply list_elem_of_lookup_2, Hr.
Qed.

Lemma shape_kept_eat_loop pieces counter :
  preserves shape_kept (eat_loop strict pieces counter).
Proof.
  pose proof shape_kept_refl. pose proof shape_kept_trans.
  revert counter. induction pieces as [|piece rest IH]; intros counter; cbn [eat_loop].
  - preserves_step.
  - preserves_step; [apply shape_kept_set_piece | apply IH].
Qed.

(** A move applied to a board of eight rows of eight cells leaves such a
    board, whether [perform_move] returns or raises. *)
Lemma shape_kept_perform_move init_row init_col end_row end_col :
  preserves shape_kept (perform_move strict init_row init_col end_row end_col).
Proof.
  pose proof shape_kept_refl. pose proof shape_kept_trans.
  unfold perform_move, check_piece_promotion_and_promote, eat_pieces, check_end.
  repeat first
    [ apply preserves_get_piece; assumption
    | apply shape_kept_set_piece
    | apply shape_kept_eat_loop
    | apply preserves_modify; intros ? Hwf; exact Hwf
    | preserves_step ].
Qed.

End ShapeKept.

(** C6, as the code has it.  In a move made while both counts are not 0:
    when [perform_move] returns, the winner is Orange if [green_pieces] has
    reached 0 and Green if [orange_pieces] has reached 0.  Once a winner is
    set the loop of [play] takes no further turn: it returns at once, reading
    no input and leaving the game as it is. *)
Theorem winner_after_move strict search_fuel init_row init_col end_row end_col s s' b :
  perform_move strict init_row init_col end_row end_col s = Ret b s' ->
  green_pieces s <> 0 -> orange_pieces s <> 0 ->
  (green_pieces s' = 0 -> winner s' = Some PLAYER_ORANGE) /\
  (orange_pieces s' = 0 -> winner s' = Some PLAYER_GREEN) /\
  (is_Some (winner s') ->
     forall fuel lines, play_loop strict search_fuel (S fuel) lines s' = Ret lines s').
Proof.
  intros E Hgreen Horange. rewrite perform_move_split in E.
  destruct (before_check_end strict init_row init_col end_row end_col s)
    as [[] s1 | |] eqn:E1;
    [ | unfold mbind, M_bind, bind in E; rewrite E1 in E; discriminate E ..].
  rewrite (bind_ret_eq _ _ _ _ _ E1) in E.
  pose proof (wp_ret_inv _ _ _ _ _ _ _
                (mover_unchanged_before_check_end strict init_row init_col end_row end_col s)
                E1) as [Hp Hown].
  destruct (check_end_spec s1) as (w & Hend & Hw_green & Hw_orange & _).
  rewrite (bind_ret_eq _ _ _ _ _ Hend) in E. injection E as <- <-.
  split; [ | split; [exact Hw_green | ]].
  - cbn. intros Hzero. apply Hw_orange; [exact Hzero | ].
    unfold own_pieces in Hown. rewrite Hp in Hown.
    destruct (current_player s); congruence.
  - intros Hw fuel lines. cbn [play_loop]. rewrite bind_gets.
    now rewrite (bool_decide_eq_true_2 _ Hw).
Qed.

Lemma winner_after_move_witness :
  exists s',
    perform_move false 3 2 5 4 (set_eaten_pieces [(4, 3)] last_capture_position) = Ret true s' /\
    (green_pieces s' = 0 -> winner s' = Some PLAYER_ORANGE) /\
    (orange_pieces s' = 0 -> winner s' = Some PLAYER_GREEN) /\
    (is_Some (winner s') ->
       forall fuel lines, play_loop false 65 (S fuel) lines s' = Ret lines s').
Proof.
  destruct (perform_move false 3 2 5 4 (set_eaten_pieces [(4, 3)] last_capture_position))
    as [b s' | |] eqn:E; [ | vm_compute in E; discriminate E ..].
  assert (Hb : b = true).
  { assert (H : Ret b s' =
                perform_move false 3 2 5 4 (set_eaten_pieces [(4, 3)] last_capture_position))
      by now rewrite E.
    vm_compute in H. now injection H. }
  subst b. exists s'. split; [reflexivity | ].
  assert (Hgreen : green_pieces (set_eaten_pieces [(4, 3)] last_capture_position) <> 0)
    by discriminate.
  assert (Horange : orange_pieces (set_eaten_pieces [(4, 3)] last_capture_position) <> 0)
    by discriminate.
  exact (winner_after_move false 65 3 2 5 4 _ s' true E Hgreen Horange).
Defined.

(** [validate_move] and [perform_move] do not look at [winner]: after Green
    has taken the last orange man and been declared the winner,
    [validate_move] still accepts a move and [perform_move] still applies
    it. *)
Lemma moves_accepted_after_win :
  exists s1,
    validate_move false 65 3 2 5 4 last_capture_position = Ret (true, ""%string) s1 /\
  exists s2,
    perform_move false 3 2 5 4 s1 = Ret true s2 /\
  orange_pieces s2 = 0 /\ winner s2 = Some PLAYER_GREEN /\
  exists s3,
    validate_move false 65 5 4 6 5 s2 = Ret (true, ""%string) s3 /\
  exists s4,
    perform_move false 5 4 6 5 s3 = Ret true s4 /\
  get_piece false 5 4 s4 = Ret EMPTY s4 /\ get_piece false 6 5 s4 = Ret GREEN_PIECE s4.
Proof.
  run_and_provide. run_and_provide.
  split; [reflexivity | ]. split; [reflexivity | ].
  run_and_provide. run_and_provide.
  split; vm_compute; reflexivity.
Qed.

(** ** Piece counts *)

(** C1 fails on the code.  From the starting position, through the prompts
    of the game: Green plays (2,1) to (3,2) and Orange (5,2) to (4,3).  The
    counts match the board.  Green then asks for (3,2) to (5,4), a jump over
    (4,3) that lands on the orange man of (5,4): [validate_move] accepts it,
    [perform_move] overwrites the man on (5,4) and removes the one on (4,3),
    and [orange_pieces] is 11 while 10 orange men are left on the board. *)
Theorem capture_onto_occupied_square :
  exists s0,
    play_loop false 65 9 ["2"; "1"; "3"; "2"; "5"; "2"; "4"; "3"]%string init_game
      = Raise EOFError s0 /\
  green_pieces s0 = count_cells is_green (board s0) /\
  orange_pieces s0 = count_cells is_orange (board s0) /\
  check_valid_piece false 3 2 s0 = Ret true s0 /\
  get_piece false 5 4 s0 = Ret ORANGE_PIECE s0 /\
  exists s1,
    validate_move false 65 3 2 5 4 s0 = Ret (true, ""%string) s1 /\
  exists s2,
    perform_move false 3 2 5 4 s1 = Ret true s2 /\
  green_pieces s2 = 12 /\ count_cells is_green (board s2) = 12 /\
  orange_pieces s2 = 11 /\ count_cells is_orange (board s2) = 10.
Proof.
  run_and_provide.
  do 4 (split; [vm_compute; reflexivity | ]).
  run_and_provide. run_and_provide.
  repeat split; vm_compute; reflexivity.
Qed.
